(** * Colour matching of [streamlit_app.py]

    A shallow embedding of the colour-matching core of the application:
    the constant [COLOR_LIST], the scan [nearest_color_name] and the
    block that ranks the five closest named colours.

    Python integers are unbounded, so they are [Z].  Python floats are
    IEEE 754 binary64 values; they are modelled by [spec_float] with
    [prec = 53] and [emax = 1024], and [math.sqrt] by [SFsqrt], the
    correctly rounded square root. *)

From Stdlib Require Import ZArith String Ascii List Bool Lia.
From Stdlib Require Import Sorting.Sorted Sorting.Permutation.
From Stdlib Require Import Floats.SpecFloat.
Import ListNotations.

Local Open Scope Z_scope.

(** ** Results of calls that may raise *)

Module Py.

(** The exceptions the modelled code can raise, both out of [math.sqrt]. *)
Inductive exn : Type :=
| OverflowError   (* int too large to convert to float *)
| ValueError.     (* math domain error *)

Inductive result (A : Type) : Type :=
| Ok (a : A)
| Raise (e : exn).

Arguments Ok {A} a.
Arguments Raise {A} e.

Definition bind {A B : Type} (r : result A) (k : A -> result B) : result B :=
  match r with
  | Ok a => k a
  | Raise e => Raise e
  end.

Definition fails {A : Type} (r : result A) : Prop :=
  match r with
  | Ok _ => False
  | Raise _ => True
  end.

End Py.

Import Py.

Notation "x <- c ;; k" := (Py.bind c (fun x => k))
  (at level 61, c at next level, right associativity).

(** ** Floats *)

Module Float.

Definition prec : Z := 53.
Definition emax : Z := 1024.

Definition float : Type := spec_float.

Definition inf : float := S754_infinity false.
Definition zero : float := S754_zero false.

Definition eqb (x y : float) : bool := SFeqb x y.
Definition ltb (x y : float) : bool := SFltb x y.
Definition leb (x y : float) : bool := SFleb x y.

(** [float(n)] for an int [n]: rounding to nearest, ties to even;
    a value that rounds beyond the largest finite float raises. *)
Definition of_int (n : Z) : result float :=
  match binary_normalize prec emax n 0 false with
  | S754_infinity _ => Raise OverflowError
  | x => Ok x
  end.

(** The sign test of [math.sqrt]: negative numbers (and minus infinity)
    are outside the domain; [-0.0] and NaN are not. *)
Definition negative (x : float) : bool :=
  match x with
  | S754_finite true _ _ => true
  | S754_infinity true => true
  | _ => false
  end.

Definition sqrt (x : float) : result float :=
  if negative x then Raise ValueError else Ok (SFsqrt prec emax x).

(** Zero or a positive finite float. *)
Definition finite_nonneg (x : float) : bool :=
  match x with
  | S754_zero false => true
  | S754_finite false _ _ => true
  | _ => false
  end.

End Float.

(** A Python number as [best_dist] holds it: [float('inf')] before the
    first entry is seen, an int afterwards. *)
Inductive number : Type :=
| PyInt (n : Z)
| PyFloat (x : Float.float).

(** [n < x] for an int [n] and a float [x]; Python compares the exact
    values, without converting the int. *)
Definition int_lt_float (n : Z) (x : Float.float) : bool :=
  match x with
  | S754_nan => false
  | S754_infinity s => negb s
  | S754_zero _ => n <? 0
  | S754_finite s m e =>
      let v := if s then Z.neg m else Z.pos m in
      match e with
      | Zneg p => n * 2 ^ Z.pos p <? v
      | _ => n <? v * 2 ^ e
      end
  end.

(** [dist < best_dist], with [dist] an int. *)
Definition int_lt (n : Z) (b : number) : bool :=
  match b with
  | PyInt m => n <? m
  | PyFloat x => int_lt_float n x
  end.

(** [math.sqrt(x)] *)
Definition math_sqrt (x : number) : result Float.float :=
  match x with
  | PyInt n => f <- Float.of_int n ;; Float.sqrt f
  | PyFloat f => Float.sqrt f
  end.

(** ** The palette *)

Definition rgb : Type := (Z * Z * Z)%type.
Definition entry : Type := (string * rgb)%type.

Definition COLOR_LIST : list entry :=
  [ ("Black"%string, (0, 0, 0));
    ("White"%string, (255, 255, 255));
    ("Red"%string, (255, 0, 0));
    ("Lime"%string, (0, 255, 0));
    ("Blue"%string, (0, 0, 255));
    ("Yellow"%string, (255, 255, 0));
    ("Cyan"%string, (0, 255, 255));
    ("Magenta"%string, (255, 0, 255));
    ("Silver"%string, (192, 192, 192));
    ("Gray"%string, (128, 128, 128));
    ("Maroon"%string, (128, 0, 0));
    ("Olive"%string, (128, 128, 0));
    ("Green"%string, (0, 128, 0));
    ("Purple"%string, (128, 0, 128));
    ("Teal"%string, (0, 128, 128));
    ("Navy"%string, (0, 0, 128));
    ("Orange"%string, (255, 165, 0));
    ("Pink"%string, (255, 192, 203));
    ("Brown"%string, (165, 42, 42));
    ("Gold"%string, (255, 215, 0)) ].

(** ** [nearest_color_name] *)

(** [(tr - r)**2 + (tg - g)**2 + (tb - b)**2] *)
Definition sqdist (target color : rgb) : Z :=
  let '(tr, tg, tb) := target in
  let '(r, g, b) := color in
  (tr - r) ^ 2 + (tg - g) ^ 2 + (tb - b) ^ 2.

(** The loop state: [(best_name, best_dist)]. *)
Definition best : Type := (option string * number)%type.

Definition init : best := (None, PyFloat Float.inf).

(** One iteration of the [for] loop. *)
Definition step (target : rgb) (st : best) (e : entry) : best :=
  let '(name, color) := e in
  let dist := sqdist target color in
  if int_lt dist (snd st) then (Some name, PyInt dist) else st.

Definition scan (palette : list entry) (target : rgb) : best :=
  fold_left (step target) palette init.

(** The function body, over the list it iterates. *)
Definition nearest_in (palette : list entry) (target : rgb)
  : result (option string * Float.float) :=
  let '(best_name, best_dist) := scan palette target in
  d <- math_sqrt best_dist ;;
  Ok (best_name, d).

Definition nearest_color_name (target_rgb : rgb)
  : result (option string * Float.float) :=
  nearest_in COLOR_LIST target_rgb.

(** ** The ranking block *)

(** The rooted distance of one iteration, [math.sqrt] of the int. *)
Definition root (d : Z) : result Float.float := math_sqrt (PyInt d).

(** The tuples [(dist, nm, (cr, cg, cb))] collected in [dists]. *)
Definition item : Type := (Float.float * string * rgb)%type.

Definition item_dist (x : item) : Float.float := fst (fst x).
Definition item_name (x : item) : string := snd (fst x).
Definition item_color (x : item) : rgb := snd x.
Definition item_entry (x : item) : entry := (item_name x, item_color x).

(** The first loop: one tuple per entry, appended in palette order. *)
Fixpoint distances (palette : list entry) (target : rgb) : result (list item) :=
  match palette with
  | [] => Ok []
  | (nm, c) :: rest =>
      dist <- root (sqdist target c) ;;
      ds <- distances rest target ;;
      Ok ((dist, nm, c) :: ds)
  end.

(** Python orders tuples lexicographically: the first position where the
    two sides are not [==] decides, by [<]. *)
Definition rgb_eqb (a b : rgb) : bool :=
  let '(r1, g1, b1) := a in
  let '(r2, g2, b2) := b in
  (r1 =? r2) && (g1 =? g2) && (b1 =? b2).

Definition rgb_ltb (a b : rgb) : bool :=
  let '(r1, g1, b1) := a in
  let '(r2, g2, b2) := b in
  if negb (r1 =? r2) then r1 <? r2
  else if negb (g1 =? g2) then g1 <? g2
  else b1 <? b2.

Definition item_ltb (x y : item) : bool :=
  let '(d1, n1, c1) := x in
  let '(d2, n2, c2) := y in
  if negb (Float.eqb d1 d2) then Float.ltb d1 d2
  else if negb (String.eqb n1 n2) then String.ltb n1 n2
  else rgb_ltb c1 c2.

(** [list.sort()] is a stable sort that only asks [<] of its elements.
    Insertion keeps an element in front of the later ones it is not
    greater than. *)
Fixpoint insert (x : item) (l : list item) : list item :=
  match l with
  | [] => [x]
  | y :: l' => if item_ltb y x then y :: insert x l' else x :: l
  end.

Fixpoint sort (l : list item) : list item :=
  match l with
  | [] => []
  | x :: l' => insert x (sort l')
  end.

(** The slice [l[:k]]; a negative [k] counts from the end. *)
Definition slice_to {A : Type} (k : Z) (l : list A) : list A :=
  if 0 <=? k then firstn (Z.to_nat k) l
  else firstn (Z.to_nat (Z.of_nat (List.length l) + k)) l.

(** The ranking block over the list it iterates and the length of the
    slice it shows. *)
Definition top_k (palette : list entry) (target : rgb) (k : Z)
  : result (list item) :=
  dists <- distances palette target ;;
  Ok (slice_to k (sort dists)).

Definition closest_named_colors (target_rgb : rgb) : result (list item) :=
  top_k COLOR_LIST target_rgb 5.

(** ** Specification vocabulary *)

(** A colour sample has three channels in [0, 255]. *)
Definition channel (x : Z) : bool := (0 <=? x) && (x <=? 255).

Definition valid_rgb (c : rgb) : bool :=
  let '(r, g, b) := c in channel r && channel g && channel b.

Definition valid_palette (palette : list entry) : bool :=
  forallb (fun e => valid_rgb (snd e)) palette.

(** The largest squared distance between two colour samples. *)
Definition max_sqdist : Z := 3 * 255 ^ 2.

(** Entry [i] of the palette is the first one at the least squared
    distance from the target. *)
Definition first_min (palette : list entry) (target : rgb) (i : nat) (e : entry)
  : Prop :=
  nth_error palette i = Some e /\
  (forall j e', nth_error palette j = Some e' ->
                sqdist target (snd e) <= sqdist target (snd e')) /\
  (forall j e', (j < i)%nat -> nth_error palette j = Some e' ->
                sqdist target (snd e) < sqdist target (snd e')).

(** The order of equal-distance tuples asked of a stable ranking: the
    tuple that comes first in the result is an earlier palette entry than
    the one that comes after it. *)
Definition palette_order (palette : list entry) (ranked : list item) : Prop :=
  forall i j x y,
    (i < j)%nat ->
    nth_error ranked i = Some x -> nth_error ranked j = Some y ->
    Float.eqb (item_dist x) (item_dist y) = true ->
    exists i' j', (i' < j')%nat /\
                  nth_error palette i' = Some (item_entry x) /\
                  nth_error palette j' = Some (item_entry y).

(** The ranking is stable for this palette, target and length. *)
Definition ranking_stable (palette : list entry) (target : rgb) (k : Z) : Prop :=
  exists ranked, top_k palette target k = Ok ranked /\
                 palette_order palette ranked.

(** The ranking of length one holds the entry and the distance that the
    scan returns. *)
Definition top_1_is_nearest (palette : list entry) (target : rgb) : Prop :=
  exists name c d,
    nearest_in palette target = Ok (Some name, d) /\
    top_k palette target 1 = Ok [(d, name, c)].

(** The scan that compares rooted distances, the float of [math.sqrt],
    instead of the squared ints. *)
Definition step_rooted (target : rgb)
  (st : result (option string * Float.float)) (e : entry)
  : result (option string * Float.float) :=
  s <- st ;;
  dist <- root (sqdist target (snd e)) ;;
  Ok (if Float.ltb dist (snd s) then (Some (fst e), dist) else s).

Definition nearest_rooted_in (palette : list entry) (target : rgb)
  : result (option string * Float.float) :=
  fold_left (step_rooted target) palette (Ok (None, Float.inf)).

(** ** Orders *)

(** What the proofs ask of [==] and [<] on the values that occur. *)
Record strict_total {A : Type} (ok : A -> Prop) (eqb ltb : A -> A -> bool)
  : Prop :=
  { st_eq : forall a b, ok a -> ok b -> eqb a b = true -> a = b;
    st_refl : forall a, ok a -> eqb a a = true;
    st_irrefl : forall a, ok a -> ltb a a = false;
    st_trans : forall a b c, ok a -> ok b -> ok c ->
                             ltb a b = true -> ltb b c = true -> ltb a c = true;
    st_total : forall a b, ok a -> ok b ->
                           ltb a b = false -> eqb a b = false -> ltb b a = true }.

(** [==] and [<] of a tuple, seen as its prefix and its last position. *)
Definition pair_eqb {A B : Type} (eqA : A -> A -> bool) (eqB : B -> B -> bool)
  (x y : A * B) : bool :=
  eqA (fst x) (fst y) && eqB (snd x) (snd y).

Definition lex_ltb {A B : Type} (eqA ltA : A -> A -> bool) (ltB : B -> B -> bool)
  (x y : A * B) : bool :=
  if negb (eqA (fst x) (fst y)) then ltA (fst x) (fst y)
  else ltB (snd x) (snd y).

Definition item_eqb (x y : item) : bool :=
  pair_eqb (pair_eqb Float.eqb String.eqb) rgb_eqb x y.

(** The tuples of colour samples: their distance is an ordinary float. *)
Definition item_ok (x : item) : Prop := Float.finite_nonneg (item_dist x) = true.

(** [x] is not after [y] in the order of the tuples. *)
Definition item_le (x y : item) : Prop := item_ltb y x = false.

(** ** Hex codes and the swatch loop *)

(** One upper-case hexadecimal digit. *)
Definition hex_digit (n : Z) : ascii :=
  nth (Z.to_nat n)
    ["0"; "1"; "2"; "3"; "4"; "5"; "6"; "7";
     "8"; "9"; "A"; "B"; "C"; "D"; "E"; "F"]%char "?"%char.

(** The digits of a non-negative int in base 16, most significant first;
    [fuel] bounds the number of digits after the first. *)
Fixpoint hex_digits (fuel : nat) (n : Z) : string :=
  match fuel with
  | O => String (hex_digit n) EmptyString
  | S fuel' =>
      if n <? 16 then String (hex_digit n) EmptyString
      else (hex_digits fuel' (n / 16) ++ String (hex_digit (n mod 16)) EmptyString)%string
  end.

Definition hex_upper (n : Z) : string := hex_digits (Z.to_nat (Z.log2 n)) n.

(** Zero padding on the left up to [width] characters. *)
Definition zero_pad (width : nat) (s : string) : string :=
  (string_of_list_ascii (repeat "0"%char (width - String.length s)) ++ s)%string.

(** ['{:02X}'.format(n)]: upper-case hex, padded with zeros to two
    characters; the sign of a negative int counts in the width. *)
Definition format_02X (n : Z) : string :=
  if n <? 0 then String "-" (zero_pad 1 (hex_upper (- n)))
  else zero_pad 2 (hex_upper n).

(** ['#{:02X}{:02X}{:02X}'.format(r, g, b)] *)
Definition hex_code (c : rgb) : string :=
  let '(r, g, b) := c in
  String "#" (format_02X r ++ format_02X g ++ format_02X b)%string.

(** [cols = st.columns(5)]: the five columns, by their position. *)
Definition columns : list nat := seq 0 5.

(** The swatch loop over [enumerate(ranked)], from index [i] on: each
    tuple goes to [cols[i]] with its name and the hex code of its colour.
    [None] is the [IndexError] of [cols[i]]. *)
Fixpoint swatches_from (i : nat) (ranked : list item)
  : option (list (nat * string * string)) :=
  match ranked with
  | [] => Some []
  | (dist, nm, c) :: rest =>
      match nth_error columns i, swatches_from (S i) rest with
      | Some col, Some shown => Some ((col, nm, hex_code c) :: shown)
      | _, _ => None
      end
  end.

Definition swatches (ranked : list item) : option (list (nat * string * string)) :=
  swatches_from 0 ranked.

(** The arguments [(min_value, max_value, value)] of the manual input for
    a dimension of [size] pixels. *)
Definition manual_input (size : Z) : Z * Z * Z := (0, size - 1, size / 2).

(** * Properties *)

(** ** The order of floats *)

Section FloatOrder.

Import Float.

Local Ltac float_cases :=
  repeat match goal with
         | x : float |- _ => destruct x as [[]|[]| |[] ? ?]
         end;
  cbn in *; try discriminate; try reflexivity; try tauto.

Local Ltac order_cases :=
  repeat match goal with
         | |- context [(?a ?= ?b)%Z] => destruct (Z.compare_spec a b)
         | H : context [(?a ?= ?b)%Z] |- _ => destruct (Z.compare_spec a b)
         | |- context [Pos.compare_cont Eq ?a ?b] =>
             change (Pos.compare_cont Eq a b) with (Pos.compare a b);
             destruct (Pos.compare_spec a b)
         | H : context [Pos.compare_cont Eq ?a ?b] |- _ =>
             change (Pos.compare_cont Eq a b) with (Pos.compare a b) in H;
             destruct (Pos.compare_spec a b)
         end;
  subst; try discriminate; try reflexivity; try lia.

Lemma float_eqb_eq (x y : float) :
  finite_nonneg x = true -> finite_nonneg y = true ->
  eqb x y = true -> x = y.
Proof.
  unfold eqb, SFeqb. float_cases. intros _ _. order_cases.
Qed.

Lemma float_eqb_refl (x : float) :
  finite_nonneg x = true -> eqb x x = true.
Proof.
  unfold eqb, SFeqb. float_cases. intros _. order_cases.
Qed.

Lemma float_ltb_irrefl (x : float) :
  finite_nonneg x = true -> ltb x x = false.
Proof.
  unfold ltb, SFltb. float_cases. intros _. order_cases.
Qed.

Lemma float_ltb_trans (x y z : float) :
  finite_nonneg x = true -> finite_nonneg y = true -> finite_nonneg z = true ->
  ltb x y = true -> ltb y z = true -> ltb x z = true.
Proof.
  unfold ltb, SFltb. float_cases. intros _ _ _. order_cases.
Qed.

Lemma float_ltb_asym (x y : float) :
  finite_nonneg x = true -> finite_nonneg y = true ->
  ltb x y = true -> ltb y x = false.
Proof.
  unfold ltb, SFltb. float_cases. intros _ _. order_cases.
Qed.

Lemma float_ltb_neq (x y : float) :
  finite_nonneg x = true -> finite_nonneg y = true ->
  ltb x y = true -> eqb x y = false.
Proof.
  unfold ltb, eqb, SFltb, SFeqb. float_cases. intros _ _. order_cases.
Qed.

Lemma float_trichotomy (x y : float) :
  finite_nonneg x = true -> finite_nonneg y = true ->
  ltb x y = false -> eqb x y = false -> ltb y x = true.
Proof.
  unfold ltb, eqb, SFltb, SFeqb. float_cases. intros _ _. order_cases.
Qed.

Lemma float_leb_ltb (x y : float) :
  finite_nonneg x = true -> finite_nonneg y = true ->
  leb x y = negb (ltb y x).
Proof.
  unfold ltb, leb, SFltb, SFleb. float_cases. intros _ _. order_cases.
Qed.

Lemma float_ltb_inf (x : float) :
  finite_nonneg x = true -> ltb x inf = true.
Proof. float_cases. Qed.

Lemma float_zero_leb (x : float) :
  finite_nonneg x = true -> leb zero x = true.
Proof. float_cases. Qed.

End FloatOrder.

(** ** Conversion to float and square root *)

Section FloatRange.

Import Float.

Lemma digits2_pos_bounds (p : positive) :
  2 ^ (Z.pos (digits2_pos p) - 1) <= Z.pos p < 2 ^ Z.pos (digits2_pos p).
Proof.
  induction p as [p IH|p IH|]; cbn [digits2_pos].
  - rewrite Pos2Z.inj_succ, Z.pow_succ_r by lia.
    replace (Z.succ (Z.pos (digits2_pos p)) - 1)
      with (Z.succ (Z.pos (digits2_pos p) - 1)) by lia.
    rewrite Z.pow_succ_r by lia. lia.
  - rewrite Pos2Z.inj_succ, Z.pow_succ_r by lia.
    replace (Z.succ (Z.pos (digits2_pos p)) - 1)
      with (Z.succ (Z.pos (digits2_pos p) - 1)) by lia.
    rewrite Z.pow_succ_r by lia. lia.
  - cbn. lia.
Qed.

Lemma Zdigits2_le (m k : Z) :
  0 <= m < 2 ^ k -> 0 <= k -> Zdigits2 m <= k.
Proof.
  intros [Hm Hlt] Hk. destruct m as [|p|p]; cbn [Zdigits2]; try lia.
  destruct (digits2_pos_bounds p) as [Hlo _].
  destruct (Z.le_gt_cases (Z.pos (digits2_pos p)) k) as [|Hgt]; auto.
  assert (2 ^ k <= 2 ^ (Z.pos (digits2_pos p) - 1))
    by (apply Z.pow_le_mono_r; lia).
  lia.
Qed.

Lemma Zdigits2_gt (m : Z) : 0 <= m -> m < 2 ^ Zdigits2 m.
Proof.
  intros Hm. destruct m as [|p|p]; cbn [Zdigits2]; try lia.
  apply digits2_pos_bounds.
Qed.

Lemma shr_1_m (mrs : shr_record) :
  0 <= shr_m mrs -> shr_m (shr_1 mrs) = shr_m mrs / 2.
Proof.
  destruct mrs as [m r s]. cbn [shr_m shr_1]. intros Hm.
  rewrite <- Z.div2_div.
  destruct m as [|[p|p|]|p]; try reflexivity; lia.
Qed.

Lemma iter_shr_1_m (p : positive) :
  forall mrs, 0 <= shr_m mrs ->
              shr_m (iter_pos shr_1 p mrs) = shr_m mrs / 2 ^ Z.pos p.
Proof.
  assert (Hnn : forall a b, 0 <= a -> 0 < b -> 0 <= a / b)
    by (intros; apply Z.div_pos; lia).
  induction p as [p IH|p IH|]; intros mrs Hm; cbn [iter_pos].
  - assert (H1 : 0 <= shr_m (shr_1 mrs))
      by (rewrite shr_1_m by lia; apply Hnn; lia).
    assert (H2 : 0 <= shr_m (iter_pos shr_1 p (shr_1 mrs)))
      by (rewrite IH by lia; apply Hnn; lia).
    rewrite IH, IH, shr_1_m by lia.
    rewrite !Z.div_div by lia. f_equal.
    replace (Z.pos p~1) with (1 + Z.pos p + Z.pos p) by lia.
    rewrite !Z.pow_add_r by lia. change (2 ^ 1) with 2. ring.
  - assert (H2 : 0 <= shr_m (iter_pos shr_1 p mrs))
      by (rewrite IH by lia; apply Hnn; lia).
    rewrite IH, IH by lia.
    rewrite Z.div_div by lia. f_equal.
    replace (Z.pos p~0) with (Z.pos p + Z.pos p) by lia.
    rewrite Z.pow_add_r by lia. ring.
  - rewrite shr_1_m by lia. reflexivity.
Qed.

Lemma fexp_eq (t : Z) : fexp prec emax t = Z.max (t - 53) (-1074).
Proof. reflexivity. Qed.

Lemma shr_record_of_loc_m (m : Z) (l : location) :
  shr_m (shr_record_of_loc m l) = m.
Proof. destruct l as [|[]]; reflexivity. Qed.

Lemma shr_spec (mrs : shr_record) (e n : Z) :
  0 <= shr_m mrs ->
  snd (shr mrs e n) = e + Z.max n 0 /\
  shr_m (fst (shr mrs e n)) = shr_m mrs / 2 ^ Z.max n 0.
Proof.
  intros Hm. destruct n as [|p|p]; cbn [shr fst snd].
  - change (Z.max 0 0) with 0. rewrite Z.add_0_r, Z.div_1_r. auto.
  - change (Z.max (Z.pos p) 0) with (Z.pos p). split; [reflexivity|].
    apply iter_shr_1_m, Hm.
  - change (Z.max (Z.neg p) 0) with 0. rewrite Z.add_0_r, Z.div_1_r. auto.
Qed.

Lemma round_nearest_even_bounds (m : Z) (l : location) :
  m <= round_nearest_even m l <= m + 1.
Proof. destruct l as [|[]]; cbn; try destruct (Z.even m); lia. Qed.

(** The shape of a rounded non-negative mantissa, and the bound on its
    exponent when the input is no longer than a float that is in range. *)
Lemma binary_round_aux_spec (mx ex : Z) (lx : location) :
  0 <= mx ->
  exists m2 e2,
    0 <= m2 /\
    (ex <= fexp prec emax (Zdigits2 mx + ex) -> Zdigits2 mx + ex <= 1023 ->
     e2 <= emax - prec) /\
    binary_round_aux prec emax false mx ex lx =
      match m2 with
      | Z0 => S754_zero false
      | Zpos m =>
          if e2 <=? emax - prec then S754_finite false m e2
          else S754_infinity false
      | Zneg _ => S754_nan
      end.
Proof.
  intros Hmx. unfold binary_round_aux, shr_fexp.
  set (n1 := fexp prec emax (Zdigits2 mx + ex) - ex).
  destruct (shr_spec (shr_record_of_loc mx lx) ex n1) as [He1 Hm1];
    [rewrite shr_record_of_loc_m; exact Hmx|].
  rewrite shr_record_of_loc_m in Hm1.
  destruct (shr (shr_record_of_loc mx lx) ex n1) as [mrs1 e1].
  cbn [fst snd] in He1, Hm1.
  pose proof (round_nearest_even_bounds (shr_m mrs1) (loc_of_shr_record mrs1))
    as Hr.
  set (m1 := round_nearest_even (shr_m mrs1) (loc_of_shr_record mrs1)) in *.
  assert (Hm1pos : 0 <= shr_m mrs1)
    by (rewrite Hm1; apply Z.div_pos; lia).
  set (n2 := fexp prec emax (Zdigits2 m1 + e1) - e1).
  destruct (shr_spec (shr_record_of_loc m1 loc_Exact) e1 n2) as [He2 Hm2];
    [cbn; lia|].
  cbn [shr_record_of_loc shr_m] in Hm2, He2 |- *.
  destruct (shr (Build_shr_record m1 false false) e1 n2) as [mrs2 e2].
  cbn [fst snd] in He2, Hm2.
  exists (shr_m mrs2), e2. split; [|split].
  - rewrite Hm2. apply Z.div_pos; lia.
  - intros Hex HT.
    rewrite fexp_eq in Hex.
    assert (Hn1 : 0 <= n1) by (unfold n1; rewrite fexp_eq; lia).
    rewrite Z.max_l in He1, Hm1 by lia.
    assert (Hd : Zdigits2 mx <= n1 + 53)
      by (unfold n1; rewrite fexp_eq; lia).
    assert (Hlt : mx < 2 ^ n1 * 2 ^ 53).
    { rewrite <- Z.pow_add_r by lia.
      apply Z.lt_le_trans with (2 ^ Zdigits2 mx).
      - apply Zdigits2_gt, Hmx.
      - apply Z.pow_le_mono_r; lia. }
    assert (Hq : shr_m mrs1 < 2 ^ 53)
      by (rewrite Hm1; apply Z.div_lt_upper_bound; lia).
    assert (Hdm1 : Zdigits2 m1 <= 54).
    { apply Zdigits2_le; [|lia]. change (2 ^ 54) with (2 * 2 ^ 53). lia. }
    clear Hlt Hq Hm1 Hm2 Hm1pos Hr Hd.
    unfold n2, n1 in *. rewrite !fexp_eq in *. unfold prec, emax. lia.
  - reflexivity.
Qed.

Lemma digits2_pos_iter (p d : positive) :
  digits2_pos (Pos.iter xO p d) = (digits2_pos p + d)%positive.
Proof.
  induction d as [|d IH] using Pos.peano_ind.
  - cbn. rewrite Pos.add_1_r. reflexivity.
  - rewrite Pos.iter_succ. cbn [digits2_pos]. rewrite IH, Pos.add_succ_r.
    reflexivity.
Qed.

(** [float(d)] does not overflow below [2 ^ 1023]. *)
Lemma of_int_defined (d : Z) :
  0 <= d < 2 ^ 1023 ->
  exists x, of_int d = Ok x /\ finite_nonneg x = true.
Proof.
  intros [Hd Hlt]. destruct d as [|p|p]; [exists zero; split; reflexivity| |lia].
  assert (HT : Z.pos (digits2_pos p) <= 1023)
    by (apply (Zdigits2_le (Z.pos p)); lia).
  unfold of_int, binary_normalize, binary_round.
  assert (Hal : exists mz ez,
             shl_align p 0 (fexp prec emax (Z.pos (digits2_pos p) + 0)) = (mz, ez) /\
             ez <= fexp prec emax (Z.pos (digits2_pos p) + 0) /\
             Z.pos (digits2_pos mz) + ez = Z.pos (digits2_pos p)).
  { unfold shl_align. rewrite Z.sub_0_r.
    destruct (fexp prec emax (Z.pos (digits2_pos p) + 0)) as [|q|q] eqn:E.
    - exists p, 0. repeat split; lia.
    - exists p, 0. repeat split; lia.
    - exists (Pos.iter xO p q), (Z.neg q). repeat split; try lia.
      rewrite digits2_pos_iter. lia. }
  destruct Hal as (mz & ez & -> & Hez & Hdg).
  destruct (binary_round_aux_spec (Z.pos mz) ez loc_Exact) as (m2 & e2 & Hm2 & He2 & ->);
    [lia|].
  cbn [Zdigits2] in He2. rewrite Hdg in He2.
  rewrite Z.add_0_r in Hez. specialize (He2 Hez HT).
  destruct m2 as [|m|m]; [exists zero; split; reflexivity| |lia].
  apply Z.leb_le in He2. rewrite He2.
  eexists; split; reflexivity.
Qed.

(** [math.sqrt] of a non-negative finite float is defined and is not
    negative. *)
Lemma sqrt_nonneg (x : float) :
  finite_nonneg x = true ->
  exists y, Float.sqrt x = Ok y /\ leb zero y = true.
Proof.
  destruct x as [[]|[]| |[] m e]; try discriminate; intros _.
  - exists zero. split; reflexivity.
  - unfold Float.sqrt. cbn [negative SFsqrt].
    destruct (SFsqrt_core_binary prec emax (Z.pos m) e) as [[mz ez] lz] eqn:E.
    assert (Hmz : 0 <= mz).
    { unfold SFsqrt_core_binary in E.
      set (s := e - 2 * _) in E.
      set (m' := match s with Z0 => Z.pos m | Z.pos _ => Z.shiftl (Z.pos m) s
                         | Z.neg _ => 0 end) in E.
      assert (Hm' : 0 <= m').
      { unfold m'. destruct s; try lia. apply Z.shiftl_nonneg. lia. }
      pose proof (Z.sqrtrem_spec m' Hm') as Hs.
      destruct (Z.sqrtrem m') as [q r]. injection E as <- _ _. nia. }
    destruct (binary_round_aux_spec mz ez lz Hmz) as (m2 & e2 & Hm2 & _ & ->).
    eexists. split; [reflexivity|].
    destruct m2 as [|m2|m2]; [reflexivity| |lia].
    destruct (e2 <=? emax - prec); reflexivity.
Qed.

(** The rooted distance is defined and non-negative for every squared
    distance below [2 ^ 1023]. *)
Lemma root_nonneg (d : Z) :
  0 <= d < 2 ^ 1023 ->
  exists x, root d = Ok x /\ leb zero x = true.
Proof.
  intros Hd. destruct (of_int_defined d Hd) as (f & Hf & Hfin).
  unfold root, math_sqrt. rewrite Hf. cbn [bind].
  apply sqrt_nonneg, Hfin.
Qed.

Lemma Zdigits2_eq (x k : Z) :
  2 ^ (k - 1) <= x < 2 ^ k -> 0 < k -> Zdigits2 x = k.
Proof.
  intros [Hlo Hhi] Hk.
  assert (Hx : 0 < x) by (pose proof (Z.pow_pos_nonneg 2 (k - 1)); lia).
  destruct x as [|p|p]; try lia. cbn [Zdigits2].
  destruct (digits2_pos_bounds p) as [Hlo' Hhi'].
  set (n := Z.pos (digits2_pos p)) in *.
  assert (n - 1 < k) by (apply (Z.pow_lt_mono_r_iff 2); lia).
  assert (k - 1 < n) by (apply (Z.pow_lt_mono_r_iff 2); lia).
  lia.
Qed.

Lemma Zdigits2_mono (x y : Z) : 0 <= x <= y -> Zdigits2 x <= Zdigits2 y.
Proof.
  intros [Hx Hxy]. apply Zdigits2_le.
  - split; [exact Hx|]. apply Z.le_lt_trans with y; [exact Hxy|].
    apply Zdigits2_gt. lia.
  - destruct y; cbn; lia.
Qed.

Lemma pos_iter_xO (p q : positive) :
  Z.pos (Pos.iter xO p q) = Z.pos p * 2 ^ Z.pos q.
Proof.
  induction q as [|q IH] using Pos.peano_ind.
  - cbn. lia.
  - rewrite Pos.iter_succ, Pos2Z.inj_xO, IH, Pos2Z.inj_succ, Z.pow_succ_r by lia.
    ring.
Qed.

Lemma loc_of_shr_record_of_loc (m : Z) (l : location) :
  loc_of_shr_record (shr_record_of_loc m l) = l.
Proof. destruct l as [|[]]; reflexivity. Qed.

(** A mantissa of full length that rounding leaves below [2 ^ 53] is
    rounded in place. *)
Lemma binary_round_aux_canonical (m e : Z) (l : location) :
  2 ^ 52 <= m -> round_nearest_even m l < 2 ^ 53 ->
  -1074 <= e <= 971 ->
  exists m1 : positive,
    Z.pos m1 = round_nearest_even m l /\
    binary_round_aux prec emax false m e l = S754_finite false m1 e.
Proof.
  intros Hlo Hhi He.
  pose proof (round_nearest_even_bounds m l) as Hr.
  assert (Hd : Zdigits2 m = 53) by (apply Zdigits2_eq; lia).
  assert (Hd1 : Zdigits2 (round_nearest_even m l) = 53)
    by (apply Zdigits2_eq; lia).
  unfold binary_round_aux, shr_fexp.
  rewrite Hd, fexp_eq.
  replace (Z.max (53 + e - 53) (-1074) - e) with 0 by lia.
  cbn [shr]. rewrite shr_record_of_loc_m, loc_of_shr_record_of_loc.
  rewrite Hd1, fexp_eq.
  replace (Z.max (53 + e - 53) (-1074) - e) with 0 by lia.
  cbn [shr shr_record_of_loc shr_m].
  destruct (round_nearest_even m l) as [|m1|m1] eqn:E; try lia.
  exists m1. split; [reflexivity|].
  unfold emax, prec. destruct (Z.leb_spec e (1024 - 53)); [reflexivity|lia].
Qed.

Lemma scaled_bounds (d n k : Z) :
  2 ^ (n - 1) <= d < 2 ^ n -> 0 < n -> 0 <= k ->
  2 ^ (n - 1 + k) <= d * 2 ^ k /\ (d + 1) * 2 ^ k <= 2 ^ (n + k).
Proof.
  intros [Hlo Hhi] Hn Hk.
  rewrite !Z.pow_add_r by lia.
  assert (0 < 2 ^ k) by (apply Z.pow_pos_nonneg; lia).
  split; apply Z.mul_le_mono_nonneg_r; lia.
Qed.

(** [float(d)] is exact when [d] has at most 52 bits. *)
Lemma of_int_exact (d n : Z) :
  0 < d -> Zdigits2 d = n -> n <= 52 ->
  exists mz : positive,
    Z.pos mz = d * 2 ^ (53 - n) /\
    of_int d = Ok (S754_finite false mz (n - 53)).
Proof.
  intros Hd Hn Hn52. destruct d as [|p|p]; try lia. cbn [Zdigits2] in Hn.
  destruct (digits2_pos_bounds p) as [Hlo Hhi]. rewrite Hn in Hlo, Hhi.
  assert (Hn0 : 0 < n) by lia.
  unfold of_int, binary_normalize, binary_round, shl_align.
  rewrite Hn, fexp_eq, Z.sub_0_r.
  destruct (Z.max (n + 0 - 53) (-1074)) as [|q|q] eqn:E; try lia.
  assert (Hq : Z.pos q = 53 - n) by lia.
  destruct (scaled_bounds (Z.pos p) n (53 - n)) as [Hs1 Hs2]; try lia.
  replace (n - 1 + (53 - n)) with 52 in Hs1 by lia.
  replace (n + (53 - n)) with 53 in Hs2 by lia.
  destruct (binary_round_aux_canonical (Z.pos (Pos.iter xO p q)) (Z.neg q) loc_Exact)
    as (m1 & Hm1 & ->).
  - rewrite pos_iter_xO, Hq. exact Hs1.
  - cbn [round_nearest_even]. rewrite pos_iter_xO, Hq. lia.
  - lia.
  - cbn [round_nearest_even] in Hm1. injection Hm1 as ->.
    exists (Pos.iter xO p q). rewrite pos_iter_xO, Hq.
    replace (n - 53) with (Z.neg q) by lia. split; reflexivity.
Qed.

Lemma div2_bounds (x : Z) : 2 * Z.div2 x <= x <= 2 * Z.div2 x + 1.
Proof.
  rewrite Z.div2_div.
  pose proof (Z.div_mod x 2 ltac:(lia)).
  pose proof (Z.mod_pos_bound x 2 ltac:(lia)). lia.
Qed.

Lemma half_digits (n h : Z) : h = Z.div2 (n + 1) -> 2 * h <= n + 1 <= 2 * h + 1.
Proof. intros ->. apply div2_bounds. Qed.

(** The integer square root that [math.sqrt] rounds, for a float that is
    an exact int of [n] bits. *)
Lemma sqrt_core_exact (mz : positive) (d n h : Z) :
  Z.pos mz = d * 2 ^ (53 - n) ->
  2 ^ (n - 1) <= d < 2 ^ n -> 0 < n <= 52 -> h = Z.div2 (n + 1) ->
  exists l,
    SFsqrt_core_binary prec emax (Z.pos mz) (n - 53)
    = (Z.sqrt (d * 2 ^ (106 - 2 * h)), h - 53, l).
Proof.
  intros Hmz Hd Hn Hh. apply half_digits in Hh.
  destruct (scaled_bounds d n (53 - n)) as [Hs1 Hs2]; try lia.
  replace (n - 1 + (53 - n)) with 52 in Hs1 by lia.
  replace (n + (53 - n)) with 53 in Hs2 by lia.
  assert (Hpow : 0 < 2 ^ (53 - n)) by (apply Z.pow_pos_nonneg; lia).
  assert (Hdig : Zdigits2 (Z.pos mz) = 53).
  { apply Zdigits2_eq; [|lia]. change (53 - 1) with 52. lia. }
  unfold SFsqrt_core_binary. rewrite Hdig.
  replace (53 + (n - 53) + 1) with (n + 1) by lia.
  rewrite fexp_eq.
  assert (He : Z.min (Z.max (Z.div2 (n + 1) - 53) (-1074)) (Z.div2 (n - 53)) = h - 53).
  { pose proof (div2_bounds (n + 1)). pose proof (div2_bounds (n - 53)). lia. }
  rewrite He.
  destruct (n - 53 - 2 * (h - 53)) as [|s|s] eqn:Es; try lia.
  rewrite Z.shiftl_mul_pow2 by lia.
  assert (Hm' : Z.pos mz * 2 ^ Z.pos s = d * 2 ^ (106 - 2 * h)).
  { rewrite Hmz, <- Z.mul_assoc, <- Z.pow_add_r by lia. do 2 f_equal. lia. }
  rewrite Hm'.
  pose proof (Z.sqrtrem_sqrt (d * 2 ^ (106 - 2 * h))) as Hq.
  destruct (Z.sqrtrem (d * 2 ^ (106 - 2 * h))) as [q r]. cbn [fst] in Hq.
  subst q. eexists. reflexivity.
Qed.

(** The rooted distance of an int below [2 ^ 50]: a float of exponent
    [h - 53], where [h] is half the bit length rounded up, and of
    mantissa the rounded integer square root of the scaled int. *)
Lemma root_shape (d : Z) :
  0 < d < 2 ^ 50 ->
  exists m1 : positive,
    root d = Ok (S754_finite false m1 (Z.div2 (Zdigits2 d + 1) - 53)) /\
    Z.sqrt (d * 2 ^ (106 - 2 * Z.div2 (Zdigits2 d + 1))) <= Z.pos m1
    <= Z.sqrt (d * 2 ^ (106 - 2 * Z.div2 (Zdigits2 d + 1))) + 1 /\
    Z.pos m1 < 2 ^ 53.
Proof.
  intros [Hd0 Hd50].
  set (n := Zdigits2 d). set (h := Z.div2 (n + 1)).
  assert (Hn50 : n <= 50) by (apply Zdigits2_le; lia).
  assert (Hn0 : 0 < n) by (unfold n; destruct d; cbn; lia).
  assert (Hd : 2 ^ (n - 1) <= d < 2 ^ n).
  { unfold n. destruct d as [|p|p]; try lia. apply digits2_pos_bounds. }
  pose proof (half_digits n h eq_refl) as Hh.
  destruct (of_int_exact d n Hd0 eq_refl ltac:(lia)) as (mz & Hmz & Hof).
  destruct (sqrt_core_exact mz d n h Hmz Hd ltac:(lia) eq_refl) as (l & Hcore).
  set (q := Z.sqrt (d * 2 ^ (106 - 2 * h))) in *.
  destruct (scaled_bounds d n (106 - 2 * h) Hd Hn0 ltac:(lia)) as [Hs1 Hs2].
  assert (H104 : 2 ^ 104 <= 2 ^ (n - 1 + (106 - 2 * h)))
    by (apply Z.pow_le_mono_r; lia).
  assert (H106 : 2 ^ (n + (106 - 2 * h)) <= 2 ^ 106)
    by (apply Z.pow_le_mono_r; lia).
  assert (H56 : 2 ^ 56 <= 2 ^ (106 - 2 * h))
    by (apply Z.pow_le_mono_r; lia).
  assert (Hm0 : 0 <= d * 2 ^ (106 - 2 * h)) by lia.
  assert (Hq52 : 2 ^ 52 <= q).
  { apply Z.sqrt_le_square; lia. }
  assert (Hq53 : q < 2 ^ 53 - 1).
  { apply Z.sqrt_lt_square; lia. }
  pose proof (round_nearest_even_bounds q l) as Hr.
  destruct (binary_round_aux_canonical q (h - 53) l Hq52 ltac:(lia) ltac:(lia))
    as (m1 & Hm1 & Hround).
  exists m1. split; [|lia].
  unfold root, math_sqrt. rewrite Hof. cbn [bind].
  unfold Float.sqrt. cbn [negative SFsqrt]. rewrite Hcore. rewrite Hround.
  reflexivity.
Qed.

End FloatRange.

(** ** The order of rooted distances *)

Section Roots.

Import Float.

Lemma root_zero : root 0 = Ok zero.
Proof. reflexivity. Qed.

(** Below [2 ^ 50] the rooted distance is an ordinary float. *)
Lemma root_defined_below (d : Z) :
  0 <= d < 2 ^ 50 ->
  exists x, root d = Ok x /\ finite_nonneg x = true.
Proof.
  intros Hd. destruct (Z.eq_dec d 0) as [->|Hne].
  - exists zero. split; reflexivity.
  - destruct (root_shape d ltac:(lia)) as (m & Hm & _).
    eexists. split; [exact Hm|reflexivity].
Qed.

(** Below [2 ^ 50] the rooted distance increases strictly. *)
Lemma root_lt_below (d1 d2 : Z) (x y : float) :
  0 <= d1 -> d1 < d2 -> d2 < 2 ^ 50 ->
  root d1 = Ok x -> root d2 = Ok y -> ltb x y = true.
Proof.
  intros H1 H12 H2 Hx Hy.
  destruct (root_shape d2 ltac:(lia)) as (m2 & Hm2 & Hq2 & _).
  rewrite Hm2 in Hy. injection Hy as <-.
  destruct (Z.eq_dec d1 0) as [->|Hne].
  { rewrite root_zero in Hx. injection Hx as <-. reflexivity. }
  destruct (root_shape d1 ltac:(lia)) as (m1 & Hm1 & Hq1 & Hm53).
  rewrite Hm1 in Hx. injection Hx as <-.
  set (n1 := Zdigits2 d1) in *. set (n2 := Zdigits2 d2) in *.
  set (h1 := Z.div2 (n1 + 1)) in *. set (h2 := Z.div2 (n2 + 1)) in *.
  assert (Hn : n1 <= n2) by (apply Zdigits2_mono; lia).
  assert (Hn50 : n2 <= 50) by (apply Zdigits2_le; lia).
  pose proof (half_digits n1 h1 eq_refl) as Hh1.
  pose proof (half_digits n2 h2 eq_refl) as Hh2.
  unfold ltb, SFltb, SFcompare.
  destruct (Z.compare_spec (h1 - 53) (h2 - 53)) as [Heq|Hlt|Hgt];
    [|reflexivity|lia].
  assert (Hh : h1 = h2) by lia. rewrite Hh in Hq1. clear Heq.
  set (K := 2 ^ (106 - 2 * h2)) in *.
  assert (HK : 2 ^ 56 <= K) by (apply Z.pow_le_mono_r; lia).
  assert (Hstep : Z.sqrt (d1 * K) + 2 <= Z.sqrt (d2 * K)).
  { pose proof (Z.sqrt_nonneg (d1 * K)) as Hq0.
    apply Z.sqrt_le_square; [nia|lia|].
    pose proof (Z.sqrt_spec (d1 * K) ltac:(nia)) as [Hsq _].
    set (q := Z.sqrt (d1 * K)) in *. nia. }
  change (Pos.compare_cont Eq m1 m2) with (Pos.compare m1 m2).
  destruct (Pos.compare_spec m1 m2) as [E|L|G]; [subst; lia|reflexivity|lia].
Qed.

Lemma max_sqdist_small : max_sqdist < 2 ^ 50.
Proof. reflexivity. Qed.

Lemma root_defined (d : Z) :
  0 <= d <= max_sqdist ->
  exists x, root d = Ok x /\ finite_nonneg x = true.
Proof.
  intros Hd. apply root_defined_below. pose proof max_sqdist_small. lia.
Qed.

Lemma root_lt (d1 d2 : Z) (x y : float) :
  0 <= d1 -> d1 < d2 -> d2 <= max_sqdist ->
  root d1 = Ok x -> root d2 = Ok y -> ltb x y = true.
Proof.
  intros H1 H12 H2. apply root_lt_below; try assumption.
  pose proof max_sqdist_small. lia.
Qed.

(** On colour samples the order of the rooted distances is the order
    of the squared ones. *)
Lemma root_ltb (d1 d2 : Z) (x y : float) :
  0 <= d1 <= max_sqdist -> 0 <= d2 <= max_sqdist ->
  root d1 = Ok x -> root d2 = Ok y -> ltb x y = (d1 <? d2).
Proof.
  intros H1 H2 Hx Hy.
  destruct (root_defined d1 H1) as (x' & Hx' & Hfx).
  destruct (root_defined d2 H2) as (y' & Hy' & Hfy).
  rewrite Hx in Hx'; injection Hx' as <-.
  rewrite Hy in Hy'; injection Hy' as <-.
  destruct (Z.ltb_spec d1 d2) as [Hlt|Hge].
  - apply (root_lt d1 d2); auto; lia.
  - destruct (Z.eq_dec d1 d2) as [->|Hne].
    + rewrite Hx in Hy. injection Hy as <-. apply float_ltb_irrefl; auto.
    + apply float_ltb_asym; auto. apply (root_lt d2 d1); auto; lia.
Qed.

Lemma root_eqb (d1 d2 : Z) (x y : float) :
  0 <= d1 <= max_sqdist -> 0 <= d2 <= max_sqdist ->
  root d1 = Ok x -> root d2 = Ok y -> eqb x y = (d1 =? d2).
Proof.
  intros H1 H2 Hx Hy.
  destruct (root_defined d1 H1) as (x' & Hx' & Hfx).
  destruct (root_defined d2 H2) as (y' & Hy' & Hfy).
  rewrite Hx in Hx'; injection Hx' as <-.
  rewrite Hy in Hy'; injection Hy' as <-.
  destruct (Z.eqb_spec d1 d2) as [->|Hne].
  - rewrite Hx in Hy. injection Hy as <-. apply float_eqb_refl; auto.
  - destruct (Z.lt_ge_cases d1 d2).
    + apply float_ltb_neq; auto. apply (root_lt d1 d2); auto; lia.
    + destruct (eqb x y) eqn:E; auto.
      apply float_eqb_eq in E; auto. subst y.
      assert (ltb x x = true) by (apply (root_lt d2 d1); auto; lia).
      rewrite float_ltb_irrefl in H0; auto.
Qed.

End Roots.

(** ** The scan *)

Section Scan.

Variable target : rgb.

Lemma sqdist_nonneg (c : rgb) : 0 <= sqdist target c.
Proof.
  destruct target as [[tr tg] tb], c as [[r g] b]. cbn [sqdist]. nia.
Qed.

Lemma sqdist_zero (c : rgb) : sqdist target c = 0 <-> target = c.
Proof.
  destruct target as [[tr tg] tb], c as [[r g] b]. cbn [sqdist]. split.
  - intros H. assert (tr = r) by nia. assert (tg = g) by nia.
    assert (tb = b) by nia. congruence.
  - intros [= -> -> ->]. rewrite !Z.sub_diag. reflexivity.
Qed.

Lemma sqdist_range (c : rgb) :
  valid_rgb target = true -> valid_rgb c = true ->
  0 <= sqdist target c <= max_sqdist.
Proof.
  destruct target as [[tr tg] tb], c as [[r g] b].
  unfold valid_rgb, channel, max_sqdist. cbn [sqdist]. intros Ht Hc.
  repeat match goal with
         | H : _ && _ = true |- _ => apply andb_prop in H as [? ?]
         end.
  change (3 * 255 ^ 2) with 195075. nia.
Qed.

Lemma nth_error_snoc {A : Type} (l : list A) (x y : A) (j : nat) :
  nth_error (l ++ [x]) j = Some y ->
  ((j < List.length l)%nat /\ nth_error l j = Some y) \/
  (j = List.length l /\ y = x).
Proof.
  intros H. destruct (Nat.lt_ge_cases j (List.length l)) as [Hlt|Hge].
  - left. rewrite nth_error_app1 in H by exact Hlt. auto.
  - right. rewrite nth_error_app2 in H by exact Hge.
    destruct (j - List.length l)%nat as [|n] eqn:E; cbn in H.
    + injection H as <-. split; [lia|reflexivity].
    + destruct n; discriminate.
Qed.

Lemma first_min_single (e : entry) : first_min [e] target 0 e.
Proof.
  repeat split.
  - intros [|[|j]] e' H; cbn in H; try discriminate.
    injection H as <-. lia.
  - intros j e' Hj. lia.
Qed.

Lemma first_min_keep (pre : list entry) (i : nat) (e x : entry) :
  first_min pre target i e ->
  sqdist target (snd e) <= sqdist target (snd x) ->
  first_min (pre ++ [x]) target i e.
Proof.
  intros (Hi & Hmin & Hfirst) Hle. repeat split.
  - rewrite nth_error_app1; [exact Hi|].
    apply nth_error_Some. rewrite Hi. discriminate.
  - intros j e' H. apply nth_error_snoc in H as [[_ H]|[_ ->]]; eauto.
  - intros j e' Hj H. apply nth_error_snoc in H as [[_ H]|[-> ->]]; eauto.
    assert (i < List.length pre)%nat
      by (apply nth_error_Some; rewrite Hi; discriminate).
    lia.
Qed.

Lemma first_min_new (pre : list entry) (i : nat) (e x : entry) :
  first_min pre target i e ->
  sqdist target (snd x) < sqdist target (snd e) ->
  first_min (pre ++ [x]) target (List.length pre) x.
Proof.
  intros (Hi & Hmin & Hfirst) Hlt. repeat split.
  - rewrite nth_error_app2, Nat.sub_diag by lia. reflexivity.
  - intros j e' H. apply nth_error_snoc in H as [[_ H]|[_ ->]]; [|lia].
    specialize (Hmin j e' H). lia.
  - intros j e' Hj H. apply nth_error_snoc in H as [[_ H]|[-> _]]; [|lia].
    specialize (Hmin j e' H). lia.
Qed.

(** The loop keeps the first entry at the least squared distance among
    the entries seen so far. *)
Lemma scan_from (rest : list entry) :
  forall (pre : list entry) (i : nat) (e : entry),
    first_min pre target i e ->
    exists i' e',
      fold_left (step target) rest (Some (fst e), PyInt (sqdist target (snd e)))
      = (Some (fst e'), PyInt (sqdist target (snd e'))) /\
      first_min (pre ++ rest) target i' e'.
Proof.
  induction rest as [|x rest IH]; intros pre i e Hmin.
  - exists i, e. rewrite app_nil_r. split; [reflexivity|exact Hmin].
  - cbn [fold_left]. replace (pre ++ x :: rest) with ((pre ++ [x]) ++ rest)
      by (rewrite <- app_assoc; reflexivity).
    unfold step at 2. destruct x as [name color]. cbn [snd int_lt].
    destruct (Z.ltb_spec (sqdist target color) (sqdist target (snd e))) as [Hlt|Hge].
    + apply (IH (pre ++ [(name, color)]) (List.length pre) (name, color)).
      apply first_min_new with i e; assumption.
    + apply (IH (pre ++ [(name, color)]) i e).
      apply first_min_keep; assumption.
Qed.

Lemma scan_nil : scan [] target = init.
Proof. reflexivity. Qed.

Lemma scan_first_min (palette : list entry) :
  palette <> [] ->
  exists i e,
    scan palette target = (Some (fst e), PyInt (sqdist target (snd e))) /\
    first_min palette target i e.
Proof.
  destruct palette as [|x rest]; [congruence|]. intros _.
  unfold scan. cbn [fold_left]. destruct x as [name color].
  change (step target init (name, color))
    with (Some (fst (name, color)), PyInt (sqdist target (snd (name, color)))).
  apply (scan_from rest [(name, color)] 0%nat (name, color)).
  apply first_min_single.
Qed.

End Scan.

(** ** The order of the ranked tuples *)

Section Lexicographic.

Context {A B : Type}.
Variables (okA : A -> Prop) (okB : B -> Prop).
Variables (eqA ltA : A -> A -> bool) (eqB ltB : B -> B -> bool).
Hypothesis HA : strict_total okA eqA ltA.
Hypothesis HB : strict_total okB eqB ltB.

Lemma lex_strict_total :
  strict_total (fun x => okA (fst x) /\ okB (snd x))
    (pair_eqb eqA eqB) (lex_ltb eqA ltA ltB).
Proof.
  destruct HA as [eqA_eq eqA_refl ltA_irrefl ltA_trans ltA_total].
  destruct HB as [eqB_eq eqB_refl ltB_irrefl ltB_trans ltB_total].
  split; unfold pair_eqb, lex_ltb.
  - intros [a b] [a' b'] [Ha Hb] [Ha' Hb'] H; cbn [fst snd] in *.
    apply andb_prop in H as [H1 H2].
    f_equal; [apply eqA_eq|apply eqB_eq]; assumption.
  - intros [a b] [Ha Hb]; cbn [fst snd] in *.
    rewrite eqA_refl, eqB_refl by assumption. reflexivity.
  - intros [a b] [Ha Hb]; cbn [fst snd] in *.
    rewrite eqA_refl by assumption. cbn. apply ltB_irrefl, Hb.
  - intros [a b] [a' b'] [a'' b''] [Ha Hb] [Ha' Hb'] [Ha'' Hb''];
      cbn [fst snd] in *.
    destruct (eqA a a') eqn:E1; cbn [negb].
    + apply eqA_eq in E1; try assumption. subst a'.
      destruct (eqA a a''); cbn [negb]; [apply ltB_trans|]; auto.
    + destruct (eqA a' a'') eqn:E2; cbn [negb].
      * apply eqA_eq in E2; try assumption. subst a''.
        rewrite E1. cbn [negb]. auto.
      * intros H1 H2. assert (H3 := ltA_trans a a' a'' Ha Ha' Ha'' H1 H2).
        destruct (eqA a a'') eqn:E3; cbn [negb]; [|exact H3].
        apply eqA_eq in E3; try assumption. subst a''.
        assert (H4 := ltA_trans a a' a Ha Ha' Ha H1 H2).
        rewrite ltA_irrefl in H4 by assumption. discriminate.
  - intros [a b] [a' b'] [Ha Hb] [Ha' Hb']; cbn [fst snd] in *.
    destruct (eqA a a') eqn:E1; cbn [negb andb].
    + apply eqA_eq in E1; try assumption. subst a'.
      rewrite eqA_refl by assumption. cbn [negb]. apply ltB_total; assumption.
    + intros H _. destruct (eqA a' a) eqn:E2; cbn [negb].
      * apply eqA_eq in E2; try assumption. subst a'.
        rewrite eqA_refl in E1 by assumption. discriminate.
      * apply ltA_total; assumption.
Qed.

Lemma st_asym (a b : A) :
  okA a -> okA b -> ltA a b = true -> ltA b a = false.
Proof.
  intros Ha Hb H. destruct (ltA b a) eqn:E; [|reflexivity].
  rewrite <- (st_irrefl _ _ _ HA a Ha).
  symmetry. apply (st_trans _ _ _ HA a b a); assumption.
Qed.

Lemma st_le_trans (a b c : A) :
  okA a -> okA b -> okA c ->
  ltA b a = false -> ltA c b = false -> ltA c a = false.
Proof.
  intros Ha Hb Hc Hab Hbc. destruct (ltA c a) eqn:Hca; [|reflexivity].
  destruct (eqA b a) eqn:E.
  - apply (st_eq _ _ _ HA) in E; try assumption. subst b. congruence.
  - assert (H := st_total _ _ _ HA b a Hb Ha Hab E).
    rewrite (st_trans _ _ _ HA c a b Hc Ha Hb Hca H) in Hbc. discriminate.
Qed.

End Lexicographic.

Section ItemOrder.

Lemma string_compare_refl (s : string) : String.compare s s = Eq.
Proof.
  induction s as [|a s IH]; [reflexivity|]. cbn [String.compare].
  unfold Ascii.compare. rewrite N.compare_refl. exact IH.
Qed.

Lemma string_compare_trans (s1 : string) :
  forall s2 s3, String.compare s1 s2 = Lt -> String.compare s2 s3 = Lt ->
                String.compare s1 s3 = Lt.
Proof.
  induction s1 as [|a1 s1 IH]; intros [|a2 s2] [|a3 s3]; cbn [String.compare];
    try discriminate; try reflexivity.
  unfold Ascii.compare.
  destruct (N.compare_spec (N_of_ascii a1) (N_of_ascii a2)) as [E12|L12|G12];
    try discriminate;
    destruct (N.compare_spec (N_of_ascii a2) (N_of_ascii a3)) as [E23|L23|G23];
    try discriminate; intros H1 H2.
  - rewrite E12, E23, N.compare_refl. eapply IH; eassumption.
  - rewrite E12. apply N.compare_lt_iff in L23. rewrite L23. reflexivity.
  - rewrite <- E23. apply N.compare_lt_iff in L12. rewrite L12. reflexivity.
  - assert (L13 : (N_of_ascii a1 < N_of_ascii a3)%N) by lia.
    apply N.compare_lt_iff in L13. rewrite L13. reflexivity.
Qed.

Lemma string_strict_total : strict_total (fun _ => True) String.eqb String.ltb.
Proof.
  split; unfold String.ltb.
  - intros a b _ _. apply String.eqb_eq.
  - intros a _. apply String.eqb_refl.
  - intros a _. rewrite string_compare_refl. reflexivity.
  - intros a b c _ _ _.
    destruct (String.compare a b) eqn:E1; try discriminate.
    destruct (String.compare b c) eqn:E2; try discriminate.
    rewrite (string_compare_trans a b c E1 E2). reflexivity.
  - intros a b _ _. rewrite (String.compare_antisym b a).
    destruct (String.compare a b) eqn:E; try discriminate; try reflexivity.
    apply String.compare_eq_iff in E. subst b.
    rewrite String.eqb_refl. discriminate.
Qed.

Lemma Z_strict_total : strict_total (fun _ : Z => True) Z.eqb Z.ltb.
Proof.
  split; intros; repeat match goal with
                        | H : (_ =? _) = _ |- _ => revert H
                        | H : (_ <? _) = _ |- _ => revert H
                        end;
    repeat match goal with
           | |- context [(?a =? ?b)%Z] => destruct (Z.eqb_spec a b)
           | |- context [(?a <? ?b)%Z] => destruct (Z.ltb_spec a b)
           end; intros; try discriminate; try reflexivity; lia.
Qed.

Lemma rgb_ltb_lex (x y : rgb) :
  rgb_ltb x y =
  lex_ltb (pair_eqb Z.eqb Z.eqb) (lex_ltb Z.eqb Z.ltb Z.ltb) Z.ltb x y.
Proof.
  destruct x as [[r1 g1] b1], y as [[r2 g2] b2].
  unfold rgb_ltb, lex_ltb, pair_eqb. cbn [fst snd].
  destruct (r1 =? r2), (g1 =? g2); reflexivity.
Qed.

Lemma rgb_strict_total : strict_total (fun _ => True) rgb_eqb rgb_ltb.
Proof.
  pose proof (lex_strict_total _ _ _ _ _ _
                (lex_strict_total _ _ _ _ _ _ Z_strict_total Z_strict_total)
                Z_strict_total) as [Heq Hrefl Hirr Htrans Htot].
  assert (Hok : forall x : rgb, (True /\ True) /\ True) by (intros; tauto).
  assert (Heqb : forall x y, rgb_eqb x y = pair_eqb (pair_eqb Z.eqb Z.eqb) Z.eqb x y)
    by (intros [[? ?] ?] [[? ?] ?]; reflexivity).
  split.
  - intros a b _ _. rewrite Heqb. apply Heq; auto.
  - intros a _. rewrite Heqb. apply Hrefl; auto.
  - intros a _. rewrite rgb_ltb_lex. apply Hirr; auto.
  - intros a b c _ _ _. rewrite !rgb_ltb_lex. apply Htrans; auto.
  - intros a b _ _. rewrite !rgb_ltb_lex, Heqb. apply Htot; auto.
Qed.

Lemma float_strict_total :
  strict_total (fun x => Float.finite_nonneg x = true) Float.eqb Float.ltb.
Proof.
  split.
  - apply float_eqb_eq.
  - apply float_eqb_refl.
  - apply float_ltb_irrefl.
  - apply float_ltb_trans.
  - apply float_trichotomy.
Qed.

Lemma item_ltb_lex (x y : item) :
  item_ltb x y =
  lex_ltb (pair_eqb Float.eqb String.eqb)
    (lex_ltb Float.eqb Float.ltb String.ltb) rgb_ltb x y.
Proof.
  destruct x as [[d1 n1] c1], y as [[d2 n2] c2].
  unfold item_ltb, lex_ltb, pair_eqb. cbn [fst snd].
  destruct (Float.eqb d1 d2), (String.eqb n1 n2); reflexivity.
Qed.

Lemma item_strict_total : strict_total item_ok item_eqb item_ltb.
Proof.
  pose proof (lex_strict_total _ _ _ _ _ _
                (lex_strict_total _ _ _ _ _ _
                   float_strict_total string_strict_total)
                rgb_strict_total) as [Heq Hrefl Hirr Htrans Htot].
  assert (Hok : forall x : item,
             item_ok x ->
             (Float.finite_nonneg (fst (fst x)) = true /\ True) /\ True)
    by (intros x Hx; repeat split; exact Hx).
  split.
  - intros a b Ha Hb. apply Heq; auto.
  - intros a Ha. apply Hrefl; auto.
  - intros a Ha. rewrite item_ltb_lex. apply Hirr; auto.
  - intros a b c Ha Hb Hc. rewrite !item_ltb_lex. apply Htrans; auto.
  - intros a b Ha Hb. rewrite !item_ltb_lex. apply Htot; auto.
Qed.

Lemma item_le_trans (x y z : item) :
  item_ok x -> item_ok y -> item_ok z ->
  item_le x y -> item_le y z -> item_le x z.
Proof.
  unfold item_le. intros Hx Hy Hz Hxy Hyz.
  apply (st_le_trans _ _ _ item_strict_total x y z); assumption.
Qed.

Lemma item_ltb_le (x y : item) :
  item_ok x -> item_ok y -> item_ltb x y = true -> item_le x y.
Proof.
  unfold item_le. intros Hx Hy.
  apply (st_asym _ _ _ item_strict_total); assumption.
Qed.

(** What the order of the tuples says of two tuples in that order. *)
Lemma item_le_inv (x y : item) :
  item_ok x -> item_ok y -> item_le x y ->
  Float.leb (item_dist x) (item_dist y) = true /\
  (Float.eqb (item_dist x) (item_dist y) = true ->
   String.leb (item_name x) (item_name y) = true /\
   (item_name x = item_name y ->
    rgb_ltb (item_color y) (item_color x) = false)).
Proof.
  destruct x as [[d1 n1] c1], y as [[d2 n2] c2].
  unfold item_le, item_ok, item_ltb, item_dist, item_name, item_color.
  cbn [fst snd]. intros H1 H2 Hle.
  rewrite (float_leb_ltb d1 d2 H1 H2).
  destruct (Float.eqb d2 d1) eqn:E; cbn [negb] in Hle.
  - apply float_eqb_eq in E; try assumption. subst d2.
    rewrite float_ltb_irrefl by assumption. split; [reflexivity|]. intros _.
    destruct (String.eqb n2 n1) eqn:En; cbn [negb] in Hle.
    + apply String.eqb_eq in En. subst n2. split; [|auto].
      unfold String.leb. rewrite string_compare_refl. reflexivity.
    + split.
      * unfold String.leb, String.ltb in *.
        rewrite String.compare_antisym.
        destruct (String.compare n2 n1); try discriminate; reflexivity.
      * intros ->. rewrite String.eqb_refl in En. discriminate.
  - rewrite Hle. split; [reflexivity|]. intros E'.
    apply float_eqb_eq in E'; try assumption. subst d2.
    rewrite float_eqb_refl in E by assumption. discriminate.
Qed.

End ItemOrder.

(** ** Sorting *)

Section Sorting.

Lemma insert_perm (x : item) (l : list item) :
  Permutation (insert x l) (x :: l).
Proof.
  induction l as [|y l IH]; cbn [insert]; [apply Permutation_refl|].
  destruct (item_ltb y x); [|apply Permutation_refl].
  apply perm_trans with (y :: x :: l); [|apply perm_swap].
  apply perm_skip, IH.
Qed.

Lemma sort_perm (l : list item) : Permutation (sort l) l.
Proof.
  induction l as [|x l IH]; cbn [sort]; [apply Permutation_refl|].
  apply perm_trans with (x :: sort l); [apply insert_perm|].
  apply perm_skip, IH.
Qed.

Lemma sort_length (l : list item) : List.length (sort l) = List.length l.
Proof. apply Permutation_length, sort_perm. Qed.

Lemma sort_ok (l : list item) : Forall item_ok l -> Forall item_ok (sort l).
Proof.
  intros H. apply Forall_forall. intros x Hx.
  rewrite Forall_forall in H. apply H.
  apply (Permutation_in x (sort_perm l)), Hx.
Qed.

Lemma insert_sorted (x : item) (l : list item) :
  item_ok x -> Forall item_ok l ->
  StronglySorted item_le l -> StronglySorted item_le (insert x l).
Proof.
  intros Hx. induction l as [|y l IH]; intros Hok Hs; cbn [insert].
  - constructor; constructor.
  - inversion Hok as [|? ? Hy Hl]; subst.
    inversion Hs as [|? ? Hs' Hall]; subst.
    destruct (item_ltb y x) eqn:E.
    + constructor; [apply IH; assumption|].
      apply Forall_forall. intros z Hz.
      apply (Permutation_in z (insert_perm x l)) in Hz as [<-|Hz].
      * apply item_ltb_le; assumption.
      * rewrite Forall_forall in Hall. apply Hall, Hz.
    + constructor; [exact Hs|].
      constructor; [exact E|].
      rewrite Forall_forall in Hall, Hl |- *. intros z Hz.
      apply item_le_trans with y; auto.
Qed.

(** The sorted list is in the order of the tuples. *)
Lemma sort_sorted (l : list item) :
  Forall item_ok l -> StronglySorted item_le (sort l).
Proof.
  induction l as [|x l IH]; intros Hok; cbn [sort]; [constructor|].
  inversion Hok; subst.
  apply insert_sorted; auto using sort_ok.
Qed.

Lemma sorted_nth (l : list item) :
  StronglySorted item_le l ->
  forall i j x y, (i < j)%nat ->
                  nth_error l i = Some x -> nth_error l j = Some y ->
                  item_le x y.
Proof.
  induction 1 as [|a l Hs IH Hall]; intros i j x y Hij Hi Hj.
  - destruct i; discriminate.
  - destruct j as [|j]; [lia|]. cbn [nth_error] in Hj.
    destruct i as [|i]; cbn [nth_error] in Hi.
    + injection Hi as <-. rewrite Forall_forall in Hall.
      apply Hall. eapply nth_error_In, Hj.
    + apply (IH i j); auto. lia.
Qed.

Lemma nth_error_firstn_some {A : Type} (n : nat) (l : list A) (i : nat) (x : A) :
  nth_error (firstn n l) i = Some x -> nth_error l i = Some x.
Proof.
  revert l i. induction n as [|n IH]; intros l i; cbn [firstn].
  - destruct i; discriminate.
  - destruct l as [|a l]; [destruct i; discriminate|].
    destruct i as [|i]; cbn [nth_error]; [auto|apply IH].
Qed.

Lemma nth_error_slice {A : Type} (k : Z) (l : list A) (i : nat) (x : A) :
  nth_error (slice_to k l) i = Some x -> nth_error l i = Some x.
Proof. unfold slice_to. destruct (0 <=? k); apply nth_error_firstn_some. Qed.

Lemma slice_length {A : Type} (k : Z) (l : list A) :
  1 <= k ->
  List.length (slice_to k l) = Nat.min (Z.to_nat k) (List.length l).
Proof.
  intros Hk. unfold slice_to. destruct (Z.leb_spec 0 k); [|lia].
  apply length_firstn.
Qed.

End Sorting.

(** ** The scan and the ranking on colour samples *)

Section Matcher.

Variable target : rgb.
Hypothesis target_valid : valid_rgb target = true.

Lemma valid_palette_in (palette : list entry) (e : entry) :
  valid_palette palette = true -> In e palette -> valid_rgb (snd e) = true.
Proof.
  unfold valid_palette. rewrite forallb_forall. intros H He. apply H, He.
Qed.

Lemma root_sqdist (c : rgb) :
  valid_rgb c = true ->
  exists d, root (sqdist target c) = Ok d /\ Float.finite_nonneg d = true.
Proof.
  intros Hc. apply root_defined, sqdist_range; assumption.
Qed.

Lemma root_sqdist_ltb (c1 c2 : rgb) (d1 d2 : Float.float) :
  valid_rgb c1 = true -> valid_rgb c2 = true ->
  root (sqdist target c1) = Ok d1 -> root (sqdist target c2) = Ok d2 ->
  Float.ltb d1 d2 = (sqdist target c1 <? sqdist target c2).
Proof.
  intros H1 H2. apply root_ltb; apply sqdist_range; assumption.
Qed.

(** On colour samples the scan returns the first entry at the least
    squared distance, with the root of that distance. *)
Lemma nearest_in_first_min (palette : list entry) :
  valid_palette palette = true -> palette <> [] ->
  exists i e d,
    nearest_in palette target = Ok (Some (fst e), d) /\
    first_min palette target i e /\
    root (sqdist target (snd e)) = Ok d /\
    Float.finite_nonneg d = true.
Proof.
  intros Hp Hne.
  destruct (scan_first_min target palette Hne) as (i & e & Hscan & Hmin).
  assert (He : In e palette) by (eapply nth_error_In, Hmin).
  destruct (root_sqdist (snd e) (valid_palette_in _ _ Hp He)) as (d & Hd & Hfin).
  exists i, e, d. repeat split; try assumption; try apply Hmin.
  unfold nearest_in. rewrite Hscan.
  change (math_sqrt (PyInt (sqdist target (snd e))))
    with (root (sqdist target (snd e))).
  rewrite Hd. reflexivity.
Qed.

(** The first loop of the ranking block succeeds on colour samples. *)
Lemma distances_defined (palette : list entry) :
  valid_palette palette = true ->
  exists ds,
    distances palette target = Ok ds /\
    Forall2 (fun e x => item_entry x = e /\
                        root (sqdist target (snd e)) = Ok (item_dist x) /\
                        item_ok x) palette ds.
Proof.
  induction palette as [|[nm c] palette IH]; intros Hp.
  - exists []. split; [reflexivity|constructor].
  - cbn [valid_palette forallb snd] in Hp. apply andb_prop in Hp as [Hc Hp].
    destruct (IH Hp) as (ds & Hds & Hall).
    destruct (root_sqdist c Hc) as (d & Hd & Hfin).
    exists ((d, nm, c) :: ds). cbn [distances]. rewrite Hd, Hds. cbn [bind].
    split; [reflexivity|]. constructor; [|exact Hall].
    repeat split; assumption.
Qed.

Lemma Forall2_in_r {A B : Type} (R : A -> B -> Prop) (l : list A) (l' : list B) :
  Forall2 R l l' -> forall y, In y l' -> exists x, In x l /\ R x y.
Proof.
  induction 1 as [|a b l l' Hab _ IH]; intros y Hy; [destruct Hy|].
  destruct Hy as [<-|Hy].
  - exists a. split; [left; reflexivity|exact Hab].
  - destruct (IH y Hy) as (x & Hx & Hr). exists x. split; [right|]; assumption.
Qed.

Lemma Forall2_in_l {A B : Type} (R : A -> B -> Prop) (l : list A) (l' : list B) :
  Forall2 R l l' -> forall x, In x l -> exists y, In y l' /\ R x y.
Proof.
  induction 1 as [|a b l l' Hab _ IH]; intros x Hx; [destruct Hx|].
  destruct Hx as [<-|Hx].
  - exists b. split; [left; reflexivity|exact Hab].
  - destruct (IH x Hx) as (y & Hy & Hr). exists y. split; [right|]; assumption.
Qed.

Lemma Forall2_map_l {A B : Type} (f : B -> A) (P : B -> Prop)
  (l : list A) (l' : list B) :
  Forall2 (fun a b => f b = a /\ P b) l l' -> map f l' = l /\ Forall P l'.
Proof.
  induction 1 as [|a b l l' [Hf Hp] _ [IH1 IH2]]; [split; constructor|].
  cbn [map]. rewrite Hf, IH1. split; [reflexivity|constructor; assumption].
Qed.

(** The ranking on colour samples: a slice of the sorted tuples, one
    tuple per entry. *)
Lemma top_k_sorted (palette : list entry) (k : Z) :
  valid_palette palette = true ->
  exists ds,
    top_k palette target k = Ok (slice_to k (sort ds)) /\
    map item_entry ds = palette /\
    Forall item_ok ds /\
    (forall x, In x ds ->
               root (sqdist target (item_color x)) = Ok (item_dist x)) /\
    StronglySorted item_le (sort ds).
Proof.
  intros Hp. destruct (distances_defined palette Hp) as (ds & Hds & Hall).
  exists ds. unfold top_k. rewrite Hds. cbn [bind].
  assert (Hmap : map item_entry ds = palette /\ Forall item_ok ds).
  { apply Forall2_map_l. eapply Forall2_impl; [|exact Hall].
    cbn beta. intros a b (H1 & _ & H3). auto. }
  destruct Hmap as [Hmap Hok].
  repeat split; auto.
  - intros x Hx. destruct (Forall2_in_r _ _ _ Hall x Hx) as (e & _ & He & Hr & _).
    subst e. exact Hr.
  - apply sort_sorted, Hok.
Qed.

End Matcher.

(** * The claims *)

(** ** Nearest match *)

(** C1.  For a query colour and a non-empty palette of colour samples,
    the scan returns the name of an entry together with that entry's
    rooted distance, and this distance is less than or equal to the
    rooted distance from the query to every entry of the palette. *)
Theorem nearest_distance_minimal (palette : list entry) (target : rgb) :
  valid_rgb target = true -> valid_palette palette = true -> palette <> [] ->
  exists name c d,
    nearest_in palette target = Ok (Some name, d) /\
    In (name, c) palette /\
    root (sqdist target c) = Ok d /\
    forall e, In e palette ->
              exists de, root (sqdist target (snd e)) = Ok de /\
                         Float.leb d de = true.
Proof.
  intros Ht Hp Hne.
  destruct (nearest_in_first_min target Ht palette Hp Hne)
    as (i & [name c] & d & Hnear & (Hi & Hmin & _) & Hd & Hfin).
  cbn [fst snd] in *.
  assert (Hin : In (name, c) palette) by (eapply nth_error_In, Hi).
  exists name, c, d. repeat split; try assumption.
  intros e He.
  destruct (In_nth_error _ _ He) as [j Hj].
  specialize (Hmin j e Hj). cbn [snd] in Hmin.
  pose proof (valid_palette_in _ _ Hp He) as Hve.
  pose proof (valid_palette_in _ _ Hp Hin) as Hvc. cbn [snd] in Hvc.
  destruct (root_sqdist target Ht (snd e) Hve) as (de & Hde & Hfe).
  exists de. split; [exact Hde|].
  rewrite float_leb_ltb by assumption.
  rewrite (root_sqdist_ltb target Ht (snd e) c de d) by assumption.
  destruct (Z.ltb_spec (sqdist target (snd e)) (sqdist target c)); [lia|reflexivity].
Qed.

Lemma nearest_distance_minimal_witness :
  exists name c d,
    nearest_in COLOR_LIST (250, 10, 10) = Ok (Some name, d) /\
    In (name, c) COLOR_LIST /\
    root (sqdist (250, 10, 10) c) = Ok d /\
    forall e, In e COLOR_LIST ->
              exists de, root (sqdist (250, 10, 10) (snd e)) = Ok de /\
                         Float.leb d de = true.
Proof.
  apply (nearest_distance_minimal COLOR_LIST (250, 10, 10));
    [reflexivity | reflexivity | discriminate].
Defined.

(** C3.  The loop replaces its running best only when the new squared
    distance is strictly smaller.  So for a query colour and a non-empty
    palette of colour samples the scan returns the first entry, in palette
    order, at the least distance: every entry is at least as far, every
    earlier entry is strictly farther, in squared and in rooted distance.
    For the palette [("A",(0,0,0)), ("B",(0,0,0))] and the query (0,0,0)
    it returns "A" with distance 0. *)
Theorem nearest_first_among_ties (palette : list entry) (target : rgb) :
  valid_rgb target = true -> valid_palette palette = true -> palette <> [] ->
  (forall best_name best_dist name color,
      step target (best_name, PyInt best_dist) (name, color) =
        if sqdist target color <? best_dist
        then (Some name, PyInt (sqdist target color))
        else (best_name, PyInt best_dist)) /\
  (exists i e d,
      nearest_in palette target = Ok (Some (fst e), d) /\
      first_min palette target i e /\
      root (sqdist target (snd e)) = Ok d /\
      forall j e', (j < i)%nat -> nth_error palette j = Some e' ->
                   exists d', root (sqdist target (snd e')) = Ok d' /\
                              Float.ltb d d' = true) /\
  nearest_in [("A"%string, (0, 0, 0)); ("B"%string, (0, 0, 0))] (0, 0, 0)
  = Ok (Some "A"%string, Float.zero).
Proof.
  intros Ht Hp Hne. split; [|split].
  - reflexivity.
  - destruct (nearest_in_first_min target Ht palette Hp Hne)
      as (i & e & d & Hnear & Hmin & Hd & Hfin).
    exists i, e, d. repeat split; try assumption; try apply Hmin.
    intros j e' Hj He'.
    destruct Hmin as (Hi & _ & Hfirst).
    assert (Hve : valid_rgb (snd e) = true)
      by (eapply valid_palette_in, nth_error_In; eassumption).
    assert (Hve' : valid_rgb (snd e') = true)
      by (eapply valid_palette_in, nth_error_In; eassumption).
    destruct (root_sqdist target Ht (snd e') Hve') as (d' & Hd' & _).
    exists d'. split; [exact Hd'|].
    rewrite (root_sqdist_ltb target Ht (snd e) (snd e') d d') by assumption.
    apply Z.ltb_lt. eapply Hfirst; eassumption.
  - reflexivity.
Qed.

Lemma nearest_first_among_ties_witness :
  exists i e d,
    nearest_in COLOR_LIST (0, 64, 65) = Ok (Some (fst e), d) /\
    first_min COLOR_LIST (0, 64, 65) i e /\
    root (sqdist (0, 64, 65) (snd e)) = Ok d /\
    forall j e', (j < i)%nat -> nth_error COLOR_LIST j = Some e' ->
                 exists d', root (sqdist (0, 64, 65) (snd e')) = Ok d' /\
                            Float.ltb d d' = true.
Proof.
  apply (nearest_first_among_ties COLOR_LIST (0, 64, 65));
    [reflexivity | reflexivity | discriminate].
Defined.

(** C8.  For a non-empty palette of colour samples, the scan applied to
    the colour of any of its entries returns distance exactly 0.  For any
    query colour the returned rooted distance is non-negative, and it is 0
    exactly when the query equals the colour of the returned entry. *)
Theorem nearest_self_match (palette : list entry) :
  valid_palette palette = true ->
  (forall e, In e palette ->
             exists name, nearest_in palette (snd e) = Ok (Some name, Float.zero)) /\
  (forall target,
      valid_rgb target = true -> palette <> [] ->
      exists i e d,
        nearest_in palette target = Ok (Some (fst e), d) /\
        first_min palette target i e /\
        Float.leb Float.zero d = true /\
        (d = Float.zero <-> target = snd e)).
Proof.
  intros Hp.
  assert (Hgen : forall target,
             valid_rgb target = true -> palette <> [] ->
             exists i e d,
               nearest_in palette target = Ok (Some (fst e), d) /\
               first_min palette target i e /\
               Float.leb Float.zero d = true /\
               (d = Float.zero <-> target = snd e)).
  { intros target Ht Hne.
    destruct (nearest_in_first_min target Ht palette Hp Hne)
      as (i & e & d & Hnear & Hmin & Hd & Hfin).
    exists i, e, d. repeat split; try assumption; try apply Hmin.
    - apply float_zero_leb, Hfin.
    - intros ->.
      assert (Hve : valid_rgb (snd e) = true)
        by (eapply valid_palette_in, nth_error_In; [eassumption|apply Hmin]).
      pose proof (root_eqb (sqdist target (snd e)) 0 Float.zero Float.zero
                    (sqdist_range target (snd e) Ht Hve)
                    ltac:(unfold max_sqdist; lia) Hd root_zero) as H.
      change (Float.eqb Float.zero Float.zero) with true in H.
      symmetry in H. apply Z.eqb_eq in H. apply sqdist_zero, H.
    - intros Heq. apply (sqdist_zero target) in Heq. rewrite Heq in Hd.
      rewrite root_zero in Hd. congruence. }
  split; [|exact Hgen].
  intros e0 He0.
  assert (Hne : palette <> []) by (intros ->; destruct He0).
  destruct (Hgen (snd e0) (valid_palette_in _ _ Hp He0) Hne)
    as (i & e & d & Hnear & (Hi & Hmin & _) & _ & Hzero).
  destruct (In_nth_error _ _ He0) as [j Hj].
  specialize (Hmin j e0 Hj).
  assert (H0 : sqdist (snd e0) (snd e0) = 0) by (apply sqdist_zero; reflexivity).
  assert (Hd : d = Float.zero).
  { apply Hzero, sqdist_zero.
    pose proof (sqdist_nonneg (snd e0) (snd e)). lia. }
  subst d. exists (fst e). exact Hnear.
Qed.

Lemma nearest_self_match_witness :
  (forall e, In e COLOR_LIST ->
             exists name, nearest_in COLOR_LIST (snd e) = Ok (Some name, Float.zero)) /\
  (forall target,
      valid_rgb target = true -> COLOR_LIST <> [] ->
      exists i e d,
        nearest_in COLOR_LIST target = Ok (Some (fst e), d) /\
        first_min COLOR_LIST target i e /\
        Float.leb Float.zero d = true /\
        (d = Float.zero <-> target = snd e)).
Proof.
  apply (nearest_self_match COLOR_LIST). reflexivity.
Defined.

(** ** Squared against rooted comparison *)

Lemma sqrt_inf : math_sqrt (PyFloat Float.inf) = Ok Float.inf.
Proof. reflexivity. Qed.

(** The two scans advance together: equal names, and a rooted best that
    is [math.sqrt] of the squared best. *)
Lemma scans_agree (target : rgb) (rest : list entry) :
  valid_rgb target = true -> valid_palette rest = true ->
  forall (bn : option string) (num : number) (f : Float.float),
    math_sqrt num = Ok f ->
    (num = PyFloat Float.inf \/
     exists d, num = PyInt d /\ 0 <= d <= max_sqdist) ->
    exists bn' num' f',
      fold_left (step target) rest (bn, num) = (bn', num') /\
      fold_left (step_rooted target) rest (Ok (bn, f)) = Ok (bn', f') /\
      math_sqrt num' = Ok f'.
Proof.
  intros Ht. induction rest as [|[name color] rest IH]; intros Hp bn num f Hf Hnum.
  - exists bn, num, f. repeat split; assumption.
  - cbn [valid_palette forallb snd] in Hp. apply andb_prop in Hp as [Hc Hp].
    cbn [fold_left].
    destruct (root_sqdist target Ht color Hc) as (d' & Hd' & Hfin').
    pose proof (sqdist_range target color Ht Hc) as Hrange.
    unfold step_rooted at 2. cbn [bind snd fst]. rewrite Hd'. cbn [bind].
    unfold step at 2. cbn [snd].
    assert (Hcmp : Float.ltb d' f = int_lt (sqdist target color) num).
    { destruct Hnum as [->|(d & -> & Hd)].
      - rewrite sqrt_inf in Hf. injection Hf as <-.
        rewrite float_ltb_inf by assumption. reflexivity.
      - cbn [int_lt]. apply root_ltb; assumption. }
    rewrite Hcmp.
    destruct (int_lt (sqdist target color) num).
    + apply IH; auto. right. eauto.
    + apply IH; auto.
Qed.

(** C5.  On colour samples, selecting the minimum by comparing squared
    distances, as the scan does, yields the same name and the same
    rooted distance as the scan that compares rooted distances. *)
Theorem squared_scan_refines_rooted (palette : list entry) (target : rgb) :
  valid_rgb target = true -> valid_palette palette = true ->
  nearest_in palette target = nearest_rooted_in palette target.
Proof.
  intros Ht Hp.
  destruct (scans_agree target palette Ht Hp None (PyFloat Float.inf) Float.inf
              sqrt_inf (or_introl eq_refl))
    as (bn & num & f & Hsq & Hrt & Hf).
  unfold nearest_in, nearest_rooted_in, scan, init.
  rewrite Hsq, Hrt, Hf. reflexivity.
Qed.

Lemma squared_scan_refines_rooted_witness :
  nearest_in COLOR_LIST (250, 10, 10) = nearest_rooted_in COLOR_LIST (250, 10, 10).
Proof.
  apply (squared_scan_refines_rooted COLOR_LIST (250, 10, 10)); reflexivity.
Defined.

(** ** Ranking *)

(** C6.  For a query colour, a palette of colour samples and [k >= 1] the
    ranking is non-decreasing in distance and has length [min k |P|];
    when [k] is at least the size of the palette the whole palette is
    returned, ranked, and no error is raised. *)
Theorem ranking_sorted_and_sized (palette : list entry) (target : rgb) (k : Z) :
  valid_rgb target = true -> valid_palette palette = true -> 1 <= k ->
  exists ranked,
    top_k palette target k = Ok ranked /\
    List.length ranked = Nat.min (Z.to_nat k) (List.length palette) /\
    (forall i j x y, (i <= j)%nat ->
                     nth_error ranked i = Some x -> nth_error ranked j = Some y ->
                     Float.leb (item_dist x) (item_dist y) = true) /\
    (Z.of_nat (List.length palette) <= k ->
     Permutation (map item_entry ranked) palette).
Proof.
  intros Ht Hp Hk.
  destruct (top_k_sorted target Ht palette k Hp)
    as (ds & Htop & Hmap & Hok & _ & Hsorted).
  assert (Hlen : List.length (sort ds) = List.length palette)
    by (rewrite sort_length, <- Hmap, length_map; reflexivity).
  exists (slice_to k (sort ds)). split; [exact Htop|]. split; [|split].
  - rewrite slice_length, Hlen by assumption. reflexivity.
  - intros i j x y Hij Hi Hj.
    apply nth_error_slice in Hi, Hj.
    assert (Hx : item_ok x).
    { pose proof (sort_ok ds Hok) as H. rewrite Forall_forall in H.
      eapply H, nth_error_In, Hi. }
    assert (Hy : item_ok y).
    { pose proof (sort_ok ds Hok) as H. rewrite Forall_forall in H.
      eapply H, nth_error_In, Hj. }
    destruct (Nat.eq_dec i j) as [->|Hne].
    + rewrite Hi in Hj. injection Hj as <-.
      rewrite float_leb_ltb, float_ltb_irrefl by assumption. reflexivity.
    + apply (item_le_inv x y Hx Hy).
      apply (sorted_nth _ Hsorted i j); auto. lia.
  - intros Hbig. unfold slice_to. destruct (Z.leb_spec 0 k); [|lia].
    rewrite firstn_all2 by lia.
    rewrite <- Hmap. apply Permutation_map, sort_perm.
Qed.

Lemma ranking_sorted_and_sized_witness :
  exists ranked,
    top_k COLOR_LIST (0, 64, 65) 5 = Ok ranked /\
    List.length ranked = Nat.min (Z.to_nat 5) (List.length COLOR_LIST) /\
    (forall i j x y, (i <= j)%nat ->
                     nth_error ranked i = Some x -> nth_error ranked j = Some y ->
                     Float.leb (item_dist x) (item_dist y) = true) /\
    (Z.of_nat (List.length COLOR_LIST) <= 5 ->
     Permutation (map item_entry ranked) COLOR_LIST).
Proof.
  apply (ranking_sorted_and_sized COLOR_LIST (0, 64, 65) 5);
    [reflexivity | reflexivity | lia].
Defined.

(** C2, as stated, fails on the built-in palette: for the pixel
    (0, 64, 65) Navy and Teal are at the same distance, and the ranking
    lists Navy before Teal although Teal comes first in [COLOR_LIST]. *)
Lemma ranking_not_stable : ~ ranking_stable COLOR_LIST (0, 64, 65) 5.
Proof.
  intros (ranked & Htop & Hord).
  vm_compute in Htop. injection Htop as <-.
  destruct (Hord 0%nat 1%nat _ _ ltac:(lia) eq_refl eq_refl eq_refl)
    as (i' & j' & Hlt & Hi & Hj).
  cbv [item_entry item_name item_color fst snd] in Hi, Hj.
  assert (Hi' : i' = 15%nat).
  { clear - Hi.
    do 20 (destruct i' as [|i']; [first [discriminate Hi | reflexivity]|]).
    destruct i'; discriminate Hi. }
  assert (Hj' : j' = 14%nat).
  { clear - Hj.
    do 20 (destruct j' as [|j']; [first [discriminate Hj | reflexivity]|]).
    destruct j'; discriminate Hj. }
  lia.
Qed.

(** C2, amended.  For a query colour, a palette of colour samples and
    any [k], two tuples of the ranking with equal distance appear in the
    order of their names, and tuples with equal distance and equal name in
    the order of their colours: [dists.sort()] compares whole tuples. *)
Theorem ranking_ties_by_name (palette : list entry) (target : rgb) (k : Z) :
  valid_rgb target = true -> valid_palette palette = true ->
  exists ranked,
    top_k palette target k = Ok ranked /\
    forall i j x y,
      (i < j)%nat ->
      nth_error ranked i = Some x -> nth_error ranked j = Some y ->
      Float.eqb (item_dist x) (item_dist y) = true ->
      String.leb (item_name x) (item_name y) = true /\
      (item_name x = item_name y ->
       rgb_ltb (item_color y) (item_color x) = false).
Proof.
  intros Ht Hp.
  destruct (top_k_sorted target Ht palette k Hp)
    as (ds & Htop & _ & Hok & _ & Hsorted).
  exists (slice_to k (sort ds)). split; [exact Htop|].
  intros i j x y Hij Hi Hj Heq.
  apply nth_error_slice in Hi, Hj.
  pose proof (sort_ok ds Hok) as Hall. rewrite Forall_forall in Hall.
  assert (Hx : item_ok x) by (eapply Hall, nth_error_In, Hi).
  assert (Hy : item_ok y) by (eapply Hall, nth_error_In, Hj).
  apply (item_le_inv x y Hx Hy); [|exact Heq].
  apply (sorted_nth _ Hsorted i j); assumption.
Qed.

Lemma ranking_ties_by_name_witness :
  exists ranked,
    top_k COLOR_LIST (0, 64, 65) 5 = Ok ranked /\
    forall i j x y,
      (i < j)%nat ->
      nth_error ranked i = Some x -> nth_error ranked j = Some y ->
      Float.eqb (item_dist x) (item_dist y) = true ->
      String.leb (item_name x) (item_name y) = true /\
      (item_name x = item_name y ->
       rgb_ltb (item_color y) (item_color x) = false).
Proof.
  apply (ranking_ties_by_name COLOR_LIST (0, 64, 65) 5); reflexivity.
Defined.

(** C4, as stated, fails on the built-in palette: for the pixel
    (0, 64, 65) the scan returns Teal and the ranking starts with Navy. *)
Lemma top_1_not_nearest : ~ top_1_is_nearest COLOR_LIST (0, 64, 65).
Proof.
  intros (name & c & d & Hnear & Htop).
  vm_compute in Hnear, Htop.
  injection Hnear as Hn _. injection Htop as _ Hn' _.
  rewrite <- Hn in Hn'. discriminate Hn'.
Qed.

Lemma item_le_refl (x : item) : item_ok x -> item_le x x.
Proof. apply (st_irrefl _ _ _ item_strict_total). Qed.

(** C4, amended.  For a query colour and a non-empty palette of colour
    samples, the ranking of length one holds one tuple; its distance is
    the rooted distance the scan returns, its entry is an entry of the
    palette at that distance, and its name is the least, in string order,
    among the names of the entries at that distance.  It carries the name
    the scan returns whenever all entries at that distance do. *)
Theorem top_1_least_name (palette : list entry) (target : rgb) :
  valid_rgb target = true -> valid_palette palette = true -> palette <> [] ->
  exists name d x,
    nearest_in palette target = Ok (Some name, d) /\
    top_k palette target 1 = Ok [x] /\
    item_dist x = d /\
    In (item_entry x) palette /\
    root (sqdist target (item_color x)) = Ok d /\
    (forall e, In e palette -> root (sqdist target (snd e)) = Ok d ->
               String.leb (item_name x) (fst e) = true) /\
    ((forall e, In e palette -> root (sqdist target (snd e)) = Ok d ->
                fst e = name) ->
     item_name x = name).
Proof.
  intros Ht Hp Hne.
  destruct (nearest_in_first_min target Ht palette Hp Hne)
    as (i & e & d & Hnear & (Hi & Hmin & _) & Hd & Hfin).
  destruct (top_k_sorted target Ht palette 1 Hp)
    as (ds & Htop & Hmap & Hok & Hroot & Hsorted).
  assert (He : In e palette) by (eapply nth_error_In, Hi).
  (* the sorted list starts with a tuple [x] *)
  destruct (sort ds) as [|x rest] eqn:Hsort.
  { exfalso. apply Hne. rewrite <- Hmap.
    assert (H : List.length ds = 0%nat) by (rewrite <- sort_length, Hsort; reflexivity).
    destruct ds; [reflexivity|discriminate H]. }
  change (slice_to 1 (x :: rest)) with [x] in Htop.
  assert (Hperm : forall y, In y ds <-> In y (x :: rest)).
  { intros y. rewrite <- Hsort. split; apply Permutation_in;
      [apply Permutation_sym|]; apply sort_perm. }
  assert (Hall : forall y, In y ds -> item_ok y)
    by (apply Forall_forall, Hok).
  assert (Hx : In x ds) by (apply Hperm; left; reflexivity).
  assert (Hhead : forall y, In y ds -> item_le x y).
  { intros y Hy. apply Hperm in Hy as [<-|Hy].
    - apply item_le_refl, Hall, Hx.
    - inversion Hsorted as [|? ? _ Hle]; subst.
      rewrite Forall_forall in Hle. apply Hle, Hy. }
  assert (Hentry : forall e', In e' palette ->
                              exists y, In y ds /\ item_entry y = e').
  { intros e' He'. rewrite <- Hmap in He'. apply in_map_iff in He'.
    destruct He' as (y & Hy & Hin). eauto. }
  assert (Hxin : In (item_entry x) palette)
    by (rewrite <- Hmap; apply in_map, Hx).
  (* the distance of [x] is the least one *)
  assert (Hdist : item_dist x = d).
  { destruct (Hentry e He) as (y & Hy & Hye).
    pose proof (Hroot y Hy) as Hry.
    replace (item_color y) with (snd e) in Hry by (rewrite <- Hye; reflexivity).
    rewrite Hd in Hry. injection Hry as Hdy.
    destruct (item_le_inv x y (Hall x Hx) (Hall y Hy) (Hhead y Hy)) as [Hle _].
    rewrite <- Hdy in Hle.
    rewrite float_leb_ltb in Hle by (try apply (Hall x Hx); assumption).
    destruct (In_nth_error _ _ Hxin) as [j Hj].
    specialize (Hmin j _ Hj). cbn [snd item_entry] in Hmin.
    pose proof (valid_palette_in _ _ Hp Hxin) as Hvx.
    pose proof (valid_palette_in _ _ Hp He) as Hve.
    cbn [snd item_entry] in Hvx.
    rewrite (root_sqdist_ltb target Ht (snd e) (item_color x) d (item_dist x)
               Hve Hvx Hd (Hroot x Hx)) in Hle.
    apply negb_true_iff, Z.ltb_ge in Hle.
    assert (Heq : sqdist target (item_color x) = sqdist target (snd e)) by lia.
    pose proof (Hroot x Hx) as Hrx. rewrite Heq, Hd in Hrx. congruence. }
  exists (fst e), d, x. repeat split; try assumption.
  - rewrite <- Hdist. apply Hroot, Hx.
  - intros e' He' Hd'.
    destruct (Hentry e' He') as (y & Hy & Hye).
    pose proof (Hroot y Hy) as Hry.
    replace (item_color y) with (snd e') in Hry by (rewrite <- Hye; reflexivity).
    rewrite Hd' in Hry. injection Hry as Hdy.
    destruct (item_le_inv x y (Hall x Hx) (Hall y Hy) (Hhead y Hy)) as [_ Hnm].
    replace (fst e') with (item_name y) by (rewrite <- Hye; reflexivity).
    apply Hnm. rewrite Hdist, <- Hdy. apply float_eqb_refl, Hfin.
  - intros Hsame. apply (Hsame (item_entry x) Hxin).
    cbn [snd item_entry]. rewrite <- Hdist. apply Hroot, Hx.
Qed.

Lemma top_1_least_name_witness :
  exists name d x,
    nearest_in COLOR_LIST (0, 64, 65) = Ok (Some name, d) /\
    top_k COLOR_LIST (0, 64, 65) 1 = Ok [x] /\
    item_dist x = d /\
    In (item_entry x) COLOR_LIST /\
    root (sqdist (0, 64, 65) (item_color x)) = Ok d /\
    (forall e, In e COLOR_LIST -> root (sqdist (0, 64, 65) (snd e)) = Ok d ->
               String.leb (item_name x) (fst e) = true) /\
    ((forall e, In e COLOR_LIST -> root (sqdist (0, 64, 65) (snd e)) = Ok d ->
                fst e = name) ->
     item_name x = name).
Proof.
  apply (top_1_least_name COLOR_LIST (0, 64, 65));
    [reflexivity | reflexivity | discriminate].
Defined.

(** ** Errors and totality *)

(** C7, as stated, fails: against the empty palette neither operation
    raises. *)
Lemma empty_palette_no_error :
  ~ Py.fails (nearest_in [] (0, 0, 0)) /\ ~ Py.fails (top_k [] (0, 0, 0) 5).
Proof. split; intros H; exact H. Qed.

(** C7, amended.  Against the empty palette the scan returns no name
    ([None]) with the distance [inf], the root of the initial
    [float('inf')], and the ranking is the empty list; nothing is raised. *)
Theorem empty_palette_results (target : rgb) (k : Z) :
  nearest_in [] target = Ok (None, Float.inf) /\
  top_k [] target k = Ok [].
Proof.
  split; [reflexivity|].
  unfold top_k, slice_to. cbn [distances bind sort List.length].
  destruct (0 <=? k); rewrite firstn_nil; reflexivity.
Qed.

(** C9, as stated, fails: the channel 2^600 is an integer, and for it
    [math.sqrt] raises [OverflowError] on the built-in palette. *)
Lemma nearest_overflow :
  nearest_color_name (2 ^ 600, 0, 0) = Raise OverflowError.
Proof. vm_compute. reflexivity. Qed.

(** C9, amended.  For every integer triple, inside [0, 255] or not, and
    every palette with an entry whose squared distance from the triple is
    below 2^1023, the scan validates nothing, does not raise, and returns
    the name of a palette entry with a non-negative distance. *)
Theorem nearest_total_below_overflow (palette : list entry) (target : rgb) :
  Exists (fun e => sqdist target (snd e) < 2 ^ 1023) palette ->
  exists name c d,
    nearest_in palette target = Ok (Some name, d) /\
    In (name, c) palette /\
    Float.leb Float.zero d = true.
Proof.
  intros Hex. apply Exists_exists in Hex as (e0 & He0 & Hsmall).
  assert (Hne : palette <> []) by (intros ->; destruct He0).
  destruct (scan_first_min target palette Hne)
    as (i & [name c] & Hscan & Hi & Hmin & _).
  cbn [fst snd] in *.
  destruct (In_nth_error _ _ He0) as [j Hj].
  specialize (Hmin j e0 Hj).
  destruct (root_nonneg (sqdist target c)) as (d & Hd & Hpos).
  { pose proof (sqdist_nonneg target c). lia. }
  exists name, c, d. split; [|split].
  - unfold nearest_in. rewrite Hscan.
    change (math_sqrt (PyInt (sqdist target c))) with (root (sqdist target c)).
    rewrite Hd. reflexivity.
  - eapply nth_error_In, Hi.
  - exact Hpos.
Qed.

Lemma nearest_total_below_overflow_witness :
  exists name c d,
    nearest_in COLOR_LIST (300, -5, 2 ^ 500) = Ok (Some name, d) /\
    In (name, c) COLOR_LIST /\
    Float.leb Float.zero d = true.
Proof.
  apply (nearest_total_below_overflow COLOR_LIST (300, -5, 2 ^ 500)).
  apply Exists_cons_hd. vm_compute. reflexivity.
Defined.

(** ** The built-in palette *)

(** C10.  [COLOR_LIST] has 20 entries, every channel of every entry lies
    in [0, 255], every name is non-empty, and the names are pairwise
    distinct. *)
Theorem color_list_valid :
  List.length COLOR_LIST = 20%nat /\
  valid_palette COLOR_LIST = true /\
  Forall (fun e => fst e <> EmptyString) COLOR_LIST /\
  NoDup (map fst COLOR_LIST).
Proof.
  split; [reflexivity|]. split; [reflexivity|]. split.
  - repeat constructor; discriminate.
  - cbn [map fst COLOR_LIST].
    repeat (constructor;
            [cbn [In]; intros H;
             repeat (destruct H as [H|H]; [discriminate H|]); exact H|]).
    constructor.
Qed.

(** * Further properties *)

(** ** The ranking as a selection *)


Lemma slice_to_firstn {A : Type} (k : Z) (l : list A) :
  exists n, slice_to k l = firstn n l.
Proof. unfold slice_to. destruct (0 <=? k); eexists; reflexivity. Qed.



Lemma item_le_antisym (x y : item) :
  item_ok x -> item_ok y -> item_le x y -> item_le y x -> x = y.
Proof.
  unfold item_le. intros Hx Hy Hxy Hyx.
  destruct (item_eqb x y) eqn:E.
  - apply (st_eq _ _ _ item_strict_total); assumption.
  - rewrite (st_total _ _ _ item_strict_total x y Hx Hy Hyx E) in Hxy.
    discriminate.
Qed.

(** A list has one arrangement in the order of the tuples. *)
Lemma sorted_unique (l1 : list item) :
  forall l2,
    Forall item_ok l1 ->
    StronglySorted item_le l1 -> StronglySorted item_le l2 ->
    Permutation l1 l2 -> l1 = l2.
Proof.
  induction l1 as [|a l1 IH]; intros l2 Hok Hs1 Hs2 Hperm.
  - apply Permutation_nil in Hperm. congruence.
  - destruct l2 as [|b l2];
      [apply Permutation_sym, Permutation_nil in Hperm; discriminate|].
    inversion Hok as [|? ? Ha Hok1]; subst.
    inversion Hs1 as [|? ? Hs1' Hall1]; subst.
    inversion Hs2 as [|? ? Hs2' Hall2]; subst.
    rewrite Forall_forall in Hall1, Hall2.
    assert (Hb : item_ok b).
    { assert (Hin : In b (a :: l1))
        by (apply (Permutation_in b (Permutation_sym Hperm)); left; reflexivity).
      rewrite Forall_forall in Hok. apply Hok, Hin. }
    assert (Hab : a = b).
    { apply item_le_antisym; try assumption.
      - assert (Hin : In b (a :: l1))
          by (apply (Permutation_in b (Permutation_sym Hperm)); left; reflexivity).
        destruct Hin as [->|Hin]; [apply item_le_refl, Hb|apply Hall1, Hin].
      - assert (Hin : In a (b :: l2))
          by (apply (Permutation_in a Hperm); left; reflexivity).
        destruct Hin as [->|Hin]; [apply item_le_refl, Ha|apply Hall2, Hin]. }
    subst b. f_equal. apply IH; try assumption.
    apply Permutation_cons_inv with a. exact Hperm.
Qed.

Lemma distances_perm (target : rgb) (p p' : list entry) :
  Permutation p p' ->
  forall ds, distances p target = Ok ds ->
             exists ds', distances p' target = Ok ds' /\ Permutation ds ds'.
Proof.
  induction 1 as [|[nm c] l l' _ IH|[nm1 c1] [nm2 c2] l|l l' l'' _ IH1 _ IH2];
    intros ds Hds.
  - exists ds. split; [exact Hds|apply Permutation_refl].
  - cbn [distances] in *.
    destruct (root (sqdist target c)) as [d|]; [|discriminate]. cbn [bind] in *.
    destruct (distances l target) as [ds0|]; [|discriminate]. cbn [bind] in *.
    injection Hds as <-.
    destruct (IH ds0 eq_refl) as (ds' & -> & Hperm). cbn [bind].
    eexists. split; [reflexivity|apply perm_skip, Hperm].
  - cbn [distances] in *.
    destruct (root (sqdist target c2)) as [d2|]; [|discriminate].
    cbn [bind] in *.
    destruct (root (sqdist target c1)) as [d1|]; [|discriminate].
    cbn [bind] in *.
    destruct (distances l target) as [ds0|]; [|discriminate]. cbn [bind] in *.
    injection Hds as <-.
    eexists. split; [reflexivity|apply perm_swap].
  - destruct (IH1 ds Hds) as (ds1 & Hds1 & Hp1).
    destruct (IH2 ds1 Hds1) as (ds2 & Hds2 & Hp2).
    exists ds2. split; [exact Hds2|]. eapply perm_trans; eassumption.
Qed.

Lemma valid_palette_perm (p p' : list entry) :
  Permutation p p' -> valid_palette p = true -> valid_palette p' = true.
Proof.
  unfold valid_palette. rewrite !forallb_forall. intros Hperm H e He.
  apply H. apply (Permutation_in e (Permutation_sym Hperm)), He.
Qed.

(** X2.  The ranking does not depend on the order of the palette: on
    colour samples, two palettes with the same entries in any order give
    the same ranking. *)
Theorem ranking_order_independent (p p' : list entry) (target : rgb) (k : Z) :
  valid_rgb target = true -> valid_palette p = true -> Permutation p p' ->
  top_k p target k = top_k p' target k.
Proof.
  intros Ht Hp Hperm.
  destruct (distances_defined target Ht p Hp) as (ds & Hds & Hall).
  destruct (distances_perm target p p' Hperm ds Hds) as (ds' & Hds' & Hpd).
  assert (Hok : Forall item_ok ds).
  { apply Forall_forall. intros x Hx.
    destruct (Forall2_in_r _ _ _ Hall x Hx) as (e & _ & _ & _ & H). exact H. }
  assert (Hok' : Forall item_ok ds').
  { apply Forall_forall. intros x Hx. rewrite Forall_forall in Hok.
    apply Hok, (Permutation_in x (Permutation_sym Hpd)), Hx. }
  unfold top_k. rewrite Hds, Hds'. cbn [bind]. do 2 f_equal.
  apply sorted_unique.
  - apply sort_ok, Hok.
  - apply sort_sorted, Hok.
  - apply sort_sorted, Hok'.
  - eapply perm_trans; [apply sort_perm|].
    eapply perm_trans; [exact Hpd|]. apply Permutation_sym, sort_perm.
Qed.

Lemma ranking_order_independent_witness :
  top_k COLOR_LIST (0, 64, 65) 5 = top_k (rev COLOR_LIST) (0, 64, 65) 5.
Proof.
  apply (ranking_order_independent COLOR_LIST (rev COLOR_LIST) (0, 64, 65) 5);
    [reflexivity | reflexivity | apply Permutation_rev].
Defined.

(** X3.  The distance of the nearest match does not depend on the order
    of the palette either; only the name among equidistant entries does. *)
Theorem nearest_distance_order_independent (p p' : list entry) (target : rgb) :
  valid_rgb target = true -> valid_palette p = true -> p <> [] ->
  Permutation p p' ->
  exists name name' d,
    nearest_in p target = Ok (Some name, d) /\
    nearest_in p' target = Ok (Some name', d).
Proof.
  intros Ht Hp Hne Hperm.
  pose proof (valid_palette_perm p p' Hperm Hp) as Hp'.
  assert (Hne' : p' <> [])
    by (intros ->; apply Permutation_sym, Permutation_nil in Hperm; auto).
  destruct (nearest_in_first_min target Ht p Hp Hne)
    as (i & e & d & Hnear & (Hi & Hmin & _) & Hd & _).
  destruct (nearest_in_first_min target Ht p' Hp' Hne')
    as (i' & e' & d' & Hnear' & (Hi' & Hmin' & _) & Hd' & _).
  assert (He : In e p') by (apply (Permutation_in e Hperm); eapply nth_error_In, Hi).
  assert (He' : In e' p)
    by (apply (Permutation_in e' (Permutation_sym Hperm)); eapply nth_error_In, Hi').
  destruct (In_nth_error _ _ He) as [j Hj].
  destruct (In_nth_error _ _ He') as [j' Hj'].
  specialize (Hmin j' e' Hj'). specialize (Hmin' j e Hj).
  assert (Heq : sqdist target (snd e) = sqdist target (snd e')) by lia.
  rewrite Heq, Hd' in Hd. injection Hd as <-.
  exists (fst e), (fst e'), d'. split; assumption.
Qed.

Lemma nearest_distance_order_independent_witness :
  exists name name' d,
    nearest_in COLOR_LIST (0, 64, 65) = Ok (Some name, d) /\
    nearest_in (rev COLOR_LIST) (0, 64, 65) = Ok (Some name', d).
Proof.
  apply (nearest_distance_order_independent COLOR_LIST (rev COLOR_LIST) (0, 64, 65));
    [reflexivity | reflexivity | discriminate | apply Permutation_rev].
Defined.

(** ** Adding rows to the palette *)

(** Scanning more rows keeps the best so far unless a row is strictly
    closer. *)
Lemma scan_extend (target : rgb) (rows : list entry) :
  forall (bn : option string) (d : Z),
    fold_left (step target) rows (bn, PyInt d) = (bn, PyInt d) \/
    exists e, In e rows /\
              fold_left (step target) rows (bn, PyInt d)
              = (Some (fst e), PyInt (sqdist target (snd e))) /\
              sqdist target (snd e) < d.
Proof.
  induction rows as [|[name color] rows IH]; intros bn d; [left; reflexivity|].
  cbn [fold_left]. unfold step at 2 4. cbn [snd int_lt].
  destruct (Z.ltb_spec (sqdist target color) d) as [Hlt|Hge].
  - right.
    destruct (IH (Some name) (sqdist target color)) as [->|(e & He & -> & Hlt')].
    + exists (name, color). split; [left; reflexivity|]. split; [reflexivity|exact Hlt].
    + exists e. split; [right; exact He|]. split; [reflexivity|lia].
  - destruct (IH bn d) as [->|(e & He & -> & Hlt')]; [left; reflexivity|].
    right. exists e. split; [right; exact He|]. split; [reflexivity|exact Hlt'].
Qed.

Lemma valid_palette_app (p q : list entry) :
  valid_palette (p ++ q) = valid_palette p && valid_palette q.
Proof. unfold valid_palette. apply forallb_app. Qed.

(** X4.  Rows appended to a palette change the nearest match only when
    one of them is strictly closer: on colour samples the scan of the
    longer palette returns either the same name and distance, or the name
    of an appended row at a strictly smaller distance. *)
Theorem nearest_append (p rows : list entry) (target : rgb) :
  valid_rgb target = true -> valid_palette p = true ->
  valid_palette rows = true -> p <> [] ->
  exists name d name' d',
    nearest_in p target = Ok (Some name, d) /\
    nearest_in (p ++ rows) target = Ok (Some name', d') /\
    ((name' = name /\ d' = d) \/
     (Float.ltb d' d = true /\
      exists c, In (name', c) rows /\ root (sqdist target c) = Ok d')).
Proof.
  intros Ht Hp Hr Hne.
  destruct (scan_first_min target p Hne) as (i & e & Hscan & Hi & _).
  assert (He : In e p) by (eapply nth_error_In, Hi).
  pose proof (valid_palette_in _ _ Hp He) as Hve.
  destruct (root_sqdist target Ht (snd e) Hve) as (d & Hd & _).
  assert (Hnear : nearest_in p target = Ok (Some (fst e), d)).
  { unfold nearest_in. rewrite Hscan.
    change (math_sqrt (PyInt (sqdist target (snd e))))
      with (root (sqdist target (snd e))).
    rewrite Hd. reflexivity. }
  assert (Hscan' : scan (p ++ rows) target
                   = fold_left (step target) rows
                       (Some (fst e), PyInt (sqdist target (snd e)))).
  { unfold scan in *. rewrite fold_left_app, Hscan. reflexivity. }
  destruct (scan_extend target rows (Some (fst e)) (sqdist target (snd e)))
    as [Hsame|(e' & He' & Hnew & Hlt)].
  - exists (fst e), d, (fst e), d. split; [exact Hnear|]. split; [|left; auto].
    unfold nearest_in. rewrite Hscan', Hsame.
    change (math_sqrt (PyInt (sqdist target (snd e))))
      with (root (sqdist target (snd e))).
    rewrite Hd. reflexivity.
  - pose proof (valid_palette_in _ _ Hr He') as Hve'.
    destruct (root_sqdist target Ht (snd e') Hve') as (d' & Hd' & _).
    exists (fst e), d, (fst e'), d'. split; [exact Hnear|]. split.
    + unfold nearest_in. rewrite Hscan', Hnew.
      change (math_sqrt (PyInt (sqdist target (snd e'))))
        with (root (sqdist target (snd e'))).
      rewrite Hd'. reflexivity.
    + right. split.
      * rewrite (root_sqdist_ltb target Ht (snd e') (snd e) d' d) by assumption.
        apply Z.ltb_lt, Hlt.
      * exists (snd e'). split; [|exact Hd'].
        destruct e'; exact He'.
Qed.

Lemma nearest_append_witness :
  exists name d name' d',
    nearest_in COLOR_LIST (250, 120, 110) = Ok (Some name, d) /\
    nearest_in (COLOR_LIST ++ [("Salmon"%string, (250, 128, 114))]) (250, 120, 110)
    = Ok (Some name', d') /\
    ((name' = name /\ d' = d) \/
     (Float.ltb d' d = true /\
      exists c, In (name', c) [("Salmon"%string, (250, 128, 114))] /\
                root (sqdist (250, 120, 110) c) = Ok d')).
Proof.
  apply (nearest_append COLOR_LIST [("Salmon"%string, (250, 128, 114))]
           (250, 120, 110));
    [reflexivity | reflexivity | reflexivity | discriminate].
Defined.

(** ** Bounds on the reported distances *)

Lemma in_firstn {A : Type} (n : nat) (l : list A) (x : A) :
  In x (firstn n l) -> In x l.
Proof.
  intros H. rewrite <- (firstn_skipn n l). apply in_or_app. left. exact H.
Qed.

(** X5.  On colour samples every distance the code reports, from the
    scan and in every ranked tuple, lies between 0.0 and the root of
    3 * 255^2 (about 441.67), the diagonal of the colour cube. *)
Theorem distances_bounded (palette : list entry) (target : rgb) (k : Z) :
  valid_rgb target = true -> valid_palette palette = true -> palette <> [] ->
  exists name d ranked diagonal,
    nearest_in palette target = Ok (Some name, d) /\
    top_k palette target k = Ok ranked /\
    root max_sqdist = Ok diagonal /\
    Float.leb Float.zero d = true /\ Float.leb d diagonal = true /\
    forall x, In x ranked ->
              Float.leb Float.zero (item_dist x) = true /\
              Float.leb (item_dist x) diagonal = true.
Proof.
  intros Ht Hp Hne.
  destruct (nearest_in_first_min target Ht palette Hp Hne)
    as (i & e & d & Hnear & (Hi & _) & Hd & Hfin).
  destruct (top_k_sorted target Ht palette k Hp)
    as (ds & Htop & Hmap & Hok & Hroot & _).
  destruct (root_defined max_sqdist ltac:(unfold max_sqdist; lia))
    as (diagonal & Hdiag & Hfd).
  assert (Hbound : forall c x, valid_rgb c = true ->
                               root (sqdist target c) = Ok x ->
                               Float.finite_nonneg x = true ->
                               Float.leb x diagonal = true).
  { intros c x Hc Hx Hfx. rewrite float_leb_ltb by assumption.
    pose proof (sqdist_range target c Ht Hc) as Hrange.
    rewrite (root_ltb max_sqdist (sqdist target c) diagonal x)
      by (try assumption; unfold max_sqdist in *; lia).
    destruct (Z.ltb_spec max_sqdist (sqdist target c)); [lia|reflexivity]. }
  assert (He : In e palette) by (eapply nth_error_In, Hi).
  exists (fst e), d, (slice_to k (sort ds)), diagonal.
  repeat split; try assumption.
  - apply float_zero_leb, Hfin.
  - apply (Hbound (snd e)); auto. eapply valid_palette_in; eassumption.
  - apply float_zero_leb.
    destruct (slice_to_firstn k (sort ds)) as [n Hn]. rewrite Hn in H.
    apply in_firstn in H. apply (Permutation_in x (sort_perm ds)) in H.
    rewrite Forall_forall in Hok. apply Hok, H.
  - destruct (slice_to_firstn k (sort ds)) as [n Hn]. rewrite Hn in H.
    apply in_firstn in H. apply (Permutation_in x (sort_perm ds)) in H.
    apply (Hbound (item_color x)).
    + apply (valid_palette_in palette (item_entry x) Hp).
      rewrite <- Hmap. apply in_map, H.
    + apply Hroot, H.
    + rewrite Forall_forall in Hok. apply Hok, H.
Qed.

Lemma distances_bounded_witness :
  exists name d ranked diagonal,
    nearest_in COLOR_LIST (250, 10, 10) = Ok (Some name, d) /\
    top_k COLOR_LIST (250, 10, 10) 5 = Ok ranked /\
    root max_sqdist = Ok diagonal /\
    Float.leb Float.zero d = true /\ Float.leb d diagonal = true /\
    forall x, In x ranked ->
              Float.leb Float.zero (item_dist x) = true /\
              Float.leb (item_dist x) diagonal = true.
Proof.
  apply (distances_bounded COLOR_LIST (250, 10, 10) 5);
    [reflexivity | reflexivity | discriminate].
Defined.

(** ** Exact roots *)

Section ExactRoots.

Import Float.

(** The integer square root, the remainder and the rounding direction
    that [math.sqrt] works with, for a float that is an exact int. *)
Lemma sqrt_core_rem (mz : positive) (d n h : Z) :
  Z.pos mz = d * 2 ^ (53 - n) ->
  2 ^ (n - 1) <= d < 2 ^ n -> 0 < n <= 52 -> h = Z.div2 (n + 1) ->
  SFsqrt_core_binary prec emax (Z.pos mz) (n - 53)
  = (let (q, r) := Z.sqrtrem (d * 2 ^ (106 - 2 * h)) in
     (q, h - 53,
      if r =? 0 then loc_Exact
      else loc_Inexact (if r <=? q then Lt else Gt))).
Proof.
  intros Hmz Hd Hn Hh. apply half_digits in Hh.
  destruct (scaled_bounds d n (53 - n)) as [Hs1 Hs2]; try lia.
  replace (n - 1 + (53 - n)) with 52 in Hs1 by lia.
  replace (n + (53 - n)) with 53 in Hs2 by lia.
  assert (Hpow : 0 < 2 ^ (53 - n)) by (apply Z.pow_pos_nonneg; lia).
  assert (Hdig : Zdigits2 (Z.pos mz) = 53).
  { apply Zdigits2_eq; [|lia]. change (53 - 1) with 52. lia. }
  unfold SFsqrt_core_binary. rewrite Hdig.
  replace (53 + (n - 53) + 1) with (n + 1) by lia.
  rewrite fexp_eq.
  assert (He : Z.min (Z.max (Z.div2 (n + 1) - 53) (-1074)) (Z.div2 (n - 53)) = h - 53).
  { pose proof (div2_bounds (n + 1)). pose proof (div2_bounds (n - 53)). lia. }
  rewrite He.
  destruct (n - 53 - 2 * (h - 53)) as [|s|s] eqn:Es; try lia.
  rewrite Z.shiftl_mul_pow2 by lia.
  assert (Hm' : Z.pos mz * 2 ^ Z.pos s = d * 2 ^ (106 - 2 * h)).
  { rewrite Hmz, <- Z.mul_assoc, <- Z.pow_add_r by lia. do 2 f_equal. lia. }
  rewrite Hm'. reflexivity.
Qed.

Lemma sqrtrem_square (s : Z) : 0 <= s -> Z.sqrtrem (s * s) = (s, 0).
Proof.
  intros Hs.
  pose proof (Z.sqrtrem_spec (s * s) ltac:(nia)) as Hspec.
  pose proof (Z.sqrtrem_sqrt (s * s)) as Hq.
  destruct (Z.sqrtrem (s * s)) as [q r]. cbn [fst] in Hq.
  rewrite Z.sqrt_square in Hq by exact Hs. subst q.
  f_equal. lia.
Qed.

Lemma root_square (n : Z) :
  0 <= n < 2 ^ 25 -> root (n * n) = of_int n.
Proof.
  intros [Hn0 Hn25]. destruct (Z.eq_dec n 0) as [->|Hne]; [reflexivity|].
  set (dn := Zdigits2 n).
  assert (Hdn : 2 ^ (dn - 1) <= n < 2 ^ dn).
  { unfold dn. destruct n as [|p|p]; try lia. apply digits2_pos_bounds. }
  assert (Hdn0 : 0 < dn) by (unfold dn; destruct n; cbn; lia).
  assert (Hdn25 : dn <= 25) by (apply Zdigits2_le; lia).
  (* the bit length of the square *)
  assert (Hsq : 2 ^ (2 * dn - 2) <= n * n < 2 ^ (2 * dn)).
  { replace (2 * dn - 2) with ((dn - 1) + (dn - 1)) by lia.
    replace (2 * dn) with (dn + dn) by lia.
    rewrite !Z.pow_add_r by lia.
    assert (0 < 2 ^ (dn - 1)) by (apply Z.pow_pos_nonneg; lia). nia. }
  set (D := Zdigits2 (n * n)).
  assert (HD1 : D <= 2 * dn) by (apply Zdigits2_le; lia).
  assert (HD2 : 2 * dn - 2 < D).
  { apply (Z.pow_lt_mono_r_iff 2); try lia.
    - unfold D. destruct (n * n); cbn; lia.
    - apply Z.le_lt_trans with (n * n); [lia|]. apply Zdigits2_gt. nia. }
  assert (HD : 2 ^ (D - 1) <= n * n < 2 ^ D).
  { unfold D. destruct (n * n) as [|p|p] eqn:E; try nia. apply digits2_pos_bounds. }
  assert (Hh : dn = Z.div2 (D + 1)) by (pose proof (div2_bounds (D + 1)); lia).
  destruct (of_int_exact (n * n) D ltac:(nia) eq_refl ltac:(lia)) as (mz & Hmz & Hof).
  destruct (of_int_exact n dn ltac:(lia) eq_refl ltac:(lia)) as (mn & Hmn & ->).
  pose proof (sqrt_core_rem mz (n * n) D dn Hmz HD ltac:(lia) Hh) as Hcore.
  assert (Hscaled : n * n * 2 ^ (106 - 2 * dn) = Z.pos mn * Z.pos mn).
  { rewrite Hmn. replace (106 - 2 * dn) with ((53 - dn) + (53 - dn)) by lia.
    rewrite Z.pow_add_r by lia. ring. }
  rewrite Hscaled, sqrtrem_square in Hcore by lia. cbn [Z.eqb] in Hcore.
  destruct (scaled_bounds n dn (53 - dn)) as [Hs1 Hs2]; try lia.
  replace (dn - 1 + (53 - dn)) with 52 in Hs1 by lia.
  replace (dn + (53 - dn)) with 53 in Hs2 by lia.
  assert (Hpow : 0 < 2 ^ (53 - dn)) by (apply Z.pow_pos_nonneg; lia).
  destruct (binary_round_aux_canonical (Z.pos mn) (dn - 53) loc_Exact)
    as (m1 & Hm1 & Hround); try (cbn [round_nearest_even]; lia).
  cbn [round_nearest_even] in Hm1. injection Hm1 as ->.
  unfold root, math_sqrt. rewrite Hof. cbn [bind].
  unfold Float.sqrt. cbn [negative SFsqrt]. rewrite Hcore, Hround.
  reflexivity.
Qed.

End ExactRoots.

(** X6.  A squared distance that is a perfect square gets its exact root:
    on colour samples, when the entry returned by the scan, or a ranked
    tuple, is at squared distance n * n from the query, the distance
    reported for it is exactly the float of n. *)
Theorem distance_exact_on_squares (palette : list entry) (target : rgb) (k : Z) :
  valid_rgb target = true -> valid_palette palette = true -> palette <> [] ->
  exists name c d ranked,
    nearest_in palette target = Ok (Some name, d) /\
    In (name, c) palette /\
    (forall n, 0 <= n -> sqdist target c = n * n -> Float.of_int n = Ok d) /\
    top_k palette target k = Ok ranked /\
    (forall x n, In x ranked -> 0 <= n ->
                 sqdist target (item_color x) = n * n ->
                 Float.of_int n = Ok (item_dist x)).
Proof.
  intros Ht Hp Hne.
  destruct (nearest_in_first_min target Ht palette Hp Hne)
    as (i & [name c] & d & Hnear & (Hi & _) & Hd & _).
  cbn [fst snd] in *.
  destruct (top_k_sorted target Ht palette k Hp)
    as (ds & Htop & Hmap & _ & Hroot & _).
  assert (Hin : In (name, c) palette) by (eapply nth_error_In, Hi).
  assert (Hexact : forall c' x n,
             valid_rgb c' = true -> root (sqdist target c') = Ok x ->
             0 <= n -> sqdist target c' = n * n -> Float.of_int n = Ok x).
  { intros c' x n Hc' Hx Hn Hsq.
    pose proof (sqdist_range target c' Ht Hc') as Hrange.
    unfold max_sqdist in Hrange.
    rewrite Hsq in Hx. rewrite root_square in Hx; [exact Hx|].
    split; [exact Hn|].
    assert (n < 442) by nia. lia. }
  exists name, c, d, (slice_to k (sort ds)). repeat split; try assumption.
  - intros n Hn Hsq. apply (Hexact c); try assumption.
    apply (valid_palette_in palette (name, c) Hp Hin).
  - intros x n Hx Hn Hsq.
    destruct (slice_to_firstn k (sort ds)) as [m Hm]. rewrite Hm in Hx.
    apply in_firstn in Hx. apply (Permutation_in x (sort_perm ds)) in Hx.
    apply (Hexact (item_color x)); try assumption.
    + apply (valid_palette_in palette (item_entry x) Hp).
      rewrite <- Hmap. apply in_map, Hx.
    + apply Hroot, Hx.
Qed.

Lemma distance_exact_on_squares_witness :
  exists name c d ranked,
    nearest_in COLOR_LIST (250, 0, 0) = Ok (Some name, d) /\
    In (name, c) COLOR_LIST /\
    (forall n, 0 <= n -> sqdist (250, 0, 0) c = n * n -> Float.of_int n = Ok d) /\
    top_k COLOR_LIST (250, 0, 0) 5 = Ok ranked /\
    (forall x n, In x ranked -> 0 <= n ->
                 sqdist (250, 0, 0) (item_color x) = n * n ->
                 Float.of_int n = Ok (item_dist x)).
Proof.
  apply (distance_exact_on_squares COLOR_LIST (250, 0, 0) 5);
    [reflexivity | reflexivity | discriminate].
Defined.

(** ** Hex codes *)

Section HexCodes.

Lemma forall_range (P : Z -> bool) (lo : Z) (len : nat) :
  forallb P (map (fun i => lo + Z.of_nat i) (seq 0 len)) = true ->
  forall n, lo <= n < lo + Z.of_nat len -> P n = true.
Proof.
  rewrite forallb_forall. intros H n Hn. apply H.
  apply in_map_iff. exists (Z.to_nat (n - lo)). split; [lia|].
  apply in_seq. lia.
Qed.

Lemma channel_range (n : Z) : channel n = true <-> 0 <= n <= 255.
Proof. unfold channel. rewrite andb_true_iff, !Z.leb_le. tauto. Qed.

(** On a channel the format is its two hex digits. *)
Lemma format_02X_channel (n : Z) :
  channel n = true ->
  format_02X n
  = String (hex_digit (n / 16)) (String (hex_digit (n mod 16)) EmptyString).
Proof.
  intros Hn. apply channel_range in Hn. apply String.eqb_eq.
  apply (forall_range
           (fun n => String.eqb (format_02X n)
                       (String (hex_digit (n / 16))
                          (String (hex_digit (n mod 16)) EmptyString)))
           0 256); [vm_compute; reflexivity|lia].
Qed.

Lemma hex_digit_inj (a b : Z) :
  0 <= a < 16 -> 0 <= b < 16 -> hex_digit a = hex_digit b -> a = b.
Proof.
  intros Ha Hb H. apply Z.eqb_eq.
  apply (forall_range
           (fun a => forallb (fun b => implb (Ascii.eqb (hex_digit a) (hex_digit b))
                                            (a =? b))
                       (map (fun i => 0 + Z.of_nat i) (seq 0 16)))
           0 16 eq_refl a) in Ha.
  pose proof (forall_range _ 0 16 Ha b Hb) as Hab. cbn beta in Hab.
  rewrite H, Ascii.eqb_refl in Hab. exact Hab.
Qed.

Lemma format_02X_inj (n m : Z) :
  channel n = true -> channel m = true -> format_02X n = format_02X m -> n = m.
Proof.
  intros Hn Hm. rewrite (format_02X_channel n Hn), (format_02X_channel m Hm).
  apply channel_range in Hn, Hm. intros [= Hhi Hlo].
  apply hex_digit_inj in Hhi;
    [|split; [apply Z.div_pos|apply Z.div_lt_upper_bound]; lia
     |split; [apply Z.div_pos|apply Z.div_lt_upper_bound]; lia].
  apply hex_digit_inj in Hlo; [|apply Z.mod_pos_bound; lia|apply Z.mod_pos_bound; lia].
  rewrite (Z.div_mod n 16), (Z.div_mod m 16) by lia. congruence.
Qed.

(** X7.  The hex code of a colour sample is [#RRGGBB]: a hash and the two
    upper-case hex digits of each channel; two colour samples with the
    same hex code are the same colour. *)
Theorem hex_code_of_sample (c : rgb) :
  valid_rgb c = true ->
  (let '(r, g, b) := c in
   hex_code c =
   String "#"
     (String (hex_digit (r / 16)) (String (hex_digit (r mod 16))
     (String (hex_digit (g / 16)) (String (hex_digit (g mod 16))
     (String (hex_digit (b / 16)) (String (hex_digit (b mod 16))
      EmptyString))))))) /\
  (forall c', valid_rgb c' = true -> hex_code c' = hex_code c -> c' = c).
Proof.
  assert (Hform : forall r g b,
             valid_rgb (r, g, b) = true ->
             hex_code (r, g, b) =
             String "#"
               (String (hex_digit (r / 16)) (String (hex_digit (r mod 16))
               (String (hex_digit (g / 16)) (String (hex_digit (g mod 16))
               (String (hex_digit (b / 16)) (String (hex_digit (b mod 16))
                EmptyString))))))).
  { intros r g b H. unfold valid_rgb in H.
    apply andb_prop in H as [H Hb]. apply andb_prop in H as [Hr Hg].
    unfold hex_code.
    rewrite (format_02X_channel r Hr), (format_02X_channel g Hg),
      (format_02X_channel b Hb). reflexivity. }
  destruct c as [[r g] b]. intros Hc. split; [apply Hform, Hc|].
  intros [[r' g'] b'] Hc' Heq.
  rewrite (Hform r g b Hc), (Hform r' g' b' Hc') in Heq.
  injection Heq as Hr1 Hr2 Hg1 Hg2 Hb1 Hb2.
  unfold valid_rgb in Hc, Hc'.
  apply andb_prop in Hc as [Hc Hb]. apply andb_prop in Hc as [Hr Hg].
  apply andb_prop in Hc' as [Hc' Hb']. apply andb_prop in Hc' as [Hr' Hg'].
  assert (r' = r).
  { apply format_02X_inj; try assumption.
    rewrite (format_02X_channel r Hr), (format_02X_channel r' Hr'). congruence. }
  assert (g' = g).
  { apply format_02X_inj; try assumption.
    rewrite (format_02X_channel g Hg), (format_02X_channel g' Hg'). congruence. }
  assert (b' = b).
  { apply format_02X_inj; try assumption.
    rewrite (format_02X_channel b Hb), (format_02X_channel b' Hb'). congruence. }
  congruence.
Qed.

Lemma hex_code_of_sample_witness :
  hex_code (255, 165, 0) = "#FFA500"%string /\
  (forall c', valid_rgb c' = true -> hex_code c' = hex_code (255, 165, 0) ->
              c' = (255, 165, 0)).
Proof.
  apply (hex_code_of_sample (255, 165, 0)). reflexivity.
Defined.

Lemma string_length_append (s1 s2 : string) :
  String.length (s1 ++ s2) = (String.length s1 + String.length s2)%nat.
Proof. induction s1 as [|a s1 IH]; cbn; [reflexivity|rewrite IH; reflexivity]. Qed.

Lemma zero_pad_length (w : nat) (s : string) :
  String.length (zero_pad w s) = Nat.max w (String.length s).
Proof.
  unfold zero_pad. rewrite string_length_append.
  assert (H : forall l, String.length (string_of_list_ascii l) = List.length l)
    by (induction l as [|a l IH]; cbn; [reflexivity|rewrite IH; reflexivity]).
  rewrite H, repeat_length. lia.
Qed.

Lemma hex_digits_nonempty (fuel : nat) (n : Z) :
  (1 <= String.length (hex_digits fuel n))%nat.
Proof.
  destruct fuel as [|fuel]; cbn [hex_digits]; [cbn; lia|].
  destruct (n <? 16); [cbn; lia|].
  rewrite string_length_append. cbn. lia.
Qed.

Lemma hex_upper_length (n : Z) :
  (16 <= n -> (2 <= String.length (hex_upper n))%nat) /\
  (256 <= n -> (3 <= String.length (hex_upper n))%nat).
Proof.
  unfold hex_upper. split; intros Hn.
  - assert (Hlog : Z.log2 16 <= Z.log2 n) by (apply Z.log2_le_mono; lia).
    change (Z.log2 16) with 4 in Hlog.
    destruct (Z.to_nat (Z.log2 n)) as [|fuel] eqn:E; [lia|].
    cbn [hex_digits]. destruct (Z.ltb_spec n 16); [lia|].
    rewrite string_length_append.
    pose proof (hex_digits_nonempty fuel (n / 16)). cbn [String.length]. lia.
  - assert (Hlog : Z.log2 256 <= Z.log2 n) by (apply Z.log2_le_mono; lia).
    change (Z.log2 256) with 8 in Hlog.
    destruct (Z.to_nat (Z.log2 n)) as [|[|fuel]] eqn:E; try lia.
    cbn [hex_digits]. destruct (Z.ltb_spec n 16); [lia|].
    assert (16 <= n / 16) by (apply Z.div_le_lower_bound; lia).
    destruct (Z.ltb_spec (n / 16) 16); [lia|].
    rewrite !string_length_append.
    pose proof (hex_digits_nonempty fuel (n / 16 / 16)). cbn [String.length]. lia.
Qed.

(** The format of one int has two characters from -15 to 255, more
    outside. *)
Lemma format_02X_length (n : Z) :
  (2 <= String.length (format_02X n))%nat /\
  (String.length (format_02X n) = 2%nat <-> -15 <= n <= 255).
Proof.
  destruct (Z.lt_ge_cases n (-15)) as [Hlow|Hlow];
    [|destruct (Z.le_gt_cases n 255) as [Hhigh|Hhigh]].
  - assert (Hlen : (3 <= String.length (format_02X n))%nat).
    { unfold format_02X. destruct (Z.ltb_spec n 0); [|lia].
      cbn [String.length]. rewrite zero_pad_length.
      pose proof (proj1 (hex_upper_length (- n)) ltac:(lia)). lia. }
    split; [lia|]. split; intros; lia.
  - assert (Hlen : String.length (format_02X n) = 2%nat).
    { apply Nat.eqb_eq.
      apply (forall_range (fun n => Nat.eqb (String.length (format_02X n)) 2)
               (-15) 271); [vm_compute; reflexivity|lia]. }
    split; [lia|]. split; intros; [lia|exact Hlen].
  - assert (Hlen : (3 <= String.length (format_02X n))%nat).
    { unfold format_02X. destruct (Z.ltb_spec n 0); [lia|].
      rewrite zero_pad_length.
      pose proof (proj2 (hex_upper_length n) ltac:(lia)). lia. }
    split; [lia|]. split; intros; lia.
Qed.

(** X8.  Nothing clamps the channels: the hex code has its seven
    characters exactly when every channel lies between -15 and 255, and
    more than seven otherwise; a channel above 255 always makes it longer
    than [#RRGGBB]. *)
Theorem hex_code_length (r g b : Z) :
  (7 <= String.length (hex_code (r, g, b)))%nat /\
  (String.length (hex_code (r, g, b)) = 7%nat <->
   -15 <= r <= 255 /\ -15 <= g <= 255 /\ -15 <= b <= 255).
Proof.
  unfold hex_code. cbn [String.length]. rewrite !string_length_append.
  destruct (format_02X_length r) as [Hr2 Hr].
  destruct (format_02X_length g) as [Hg2 Hg].
  destruct (format_02X_length b) as [Hb2 Hb].
  split; [lia|]. split.
  - intros H. repeat split; first [apply Hr|apply Hg|apply Hb]; lia.
  - intros (H1 & H2 & H3).
    apply Hr in H1. apply Hg in H2. apply Hb in H3. lia.
Qed.

End HexCodes.

(** ** The swatch panel *)

Lemma columns_nth (i : nat) : (i < 5)%nat -> nth_error columns i = Some i.
Proof.
  intros Hi. do 5 (destruct i as [|i]; [reflexivity|]). lia.
Qed.

(** The loop succeeds while there are columns left, and shows the tuples
    in order, one per column. *)
Lemma swatches_from_spec (ranked : list item) :
  forall i, (i + List.length ranked <= 5)%nat ->
            exists shown,
              swatches_from i ranked = Some shown /\
              map (fun s => fst (fst s)) shown = seq i (List.length ranked) /\
              map (fun s => (snd (fst s), snd s)) shown
              = map (fun x => (item_name x, hex_code (item_color x))) ranked.
Proof.
  induction ranked as [|[[dist nm] c] ranked IH]; intros i Hi.
  - exists []. repeat split.
  - cbn [List.length] in Hi. cbn [swatches_from].
    rewrite columns_nth by lia.
    destruct (IH (S i) ltac:(lia)) as (shown & -> & Hcols & Hrest).
    eexists. split; [reflexivity|]. cbn [map List.length seq fst snd].
    rewrite Hcols, Hrest. split; reflexivity.
Qed.

Lemma NoDup_firstn {A : Type} (n : nat) (l : list A) :
  NoDup l -> NoDup (firstn n l).
Proof.
  intros H. rewrite <- (firstn_skipn n l) in H.
  apply NoDup_app_remove_r in H. exact H.
Qed.

Lemma color_list_names_distinct : NoDup (map fst COLOR_LIST).
Proof.
  cbn [map fst COLOR_LIST].
  repeat (constructor;
          [cbn [In]; intros H;
           repeat (destruct H as [H|H]; [discriminate H|]); exact H|]).
  constructor.
Qed.

(** X9.  The panel of closest colours never indexes past its five
    columns: on colour samples with distinct names, the loop over the
    ranking of length five raises nothing, fills the columns 0, 1, ... in
    rank order, one per ranked tuple, shows no name twice, and labels each
    swatch with the seven-character hex code of a palette entry of that
    name. *)
Theorem swatch_panel (palette : list entry) (target : rgb) :
  valid_rgb target = true -> valid_palette palette = true ->
  NoDup (map fst palette) ->
  exists ranked shown,
    top_k palette target 5 = Ok ranked /\
    swatches ranked = Some shown /\
    map (fun s => fst (fst s)) shown = seq 0 (Nat.min 5 (List.length palette)) /\
    NoDup (map (fun s => snd (fst s)) shown) /\
    forall col nm h, In (col, nm, h) shown ->
                     exists c, In (nm, c) palette /\ h = hex_code c /\
                               String.length h = 7%nat.
Proof.
  intros Ht Hp Hnames.
  destruct (top_k_sorted target Ht palette 5 Hp)
    as (ds & Htop & Hmap & _ & _ & _).
  change (slice_to 5 (sort ds)) with (firstn 5 (sort ds)) in Htop.
  set (ranked := firstn 5 (sort ds)) in *.
  assert (Hlen : List.length ranked = Nat.min 5 (List.length palette)).
  { unfold ranked. rewrite length_firstn, sort_length, <- Hmap, length_map.
    reflexivity. }
  destruct (swatches_from_spec ranked 0%nat ltac:(lia)) as (shown & Hshown & Hcols & Hrest).
  exists ranked, shown. split; [exact Htop|]. split; [exact Hshown|].
  assert (Hentries : Permutation (map item_entry (sort ds)) palette)
    by (rewrite <- Hmap; apply Permutation_map, sort_perm).
  split; [rewrite Hcols, Hlen; reflexivity|]. split.
  - replace (map (fun s => snd (fst s)) shown)
      with (map fst (map (fun s : nat * string * string => (snd (fst s), snd s)) shown))
      by (rewrite map_map; reflexivity).
    rewrite Hrest, map_map. cbn [fst].
    change (map (fun x => item_name x) ranked) with (map item_name ranked).
    unfold ranked. rewrite <- firstn_map. apply NoDup_firstn.
    apply (Permutation_NoDup (l := map fst palette)); [|exact Hnames].
    apply Permutation_sym.
    replace (map item_name (sort ds)) with (map fst (map item_entry (sort ds)))
      by (rewrite map_map; reflexivity).
    apply Permutation_map, Hentries.
  - intros col nm h Hin.
    assert (Hin' : In (nm, h) (map (fun s : nat * string * string => (snd (fst s), snd s)) shown))
      by (apply in_map_iff; exists (col, nm, h); split; [reflexivity|exact Hin]).
    rewrite Hrest in Hin'. apply in_map_iff in Hin' as (x & [= <- <-] & Hx).
    unfold ranked in Hx. apply in_firstn in Hx.
    assert (He : In (item_entry x) palette).
    { apply (Permutation_in _ Hentries). apply in_map, Hx. }
    exists (item_color x). split; [exact He|]. split; [reflexivity|].
    pose proof (valid_palette_in palette (item_entry x) Hp He) as Hv.
    cbn [snd item_entry] in Hv. destruct (item_color x) as [[r g] b].
    apply hex_code_length.
    unfold valid_rgb in Hv.
    apply andb_prop in Hv as [Hv Hb]. apply andb_prop in Hv as [Hr Hg].
    apply channel_range in Hr, Hg, Hb. lia.
Qed.

Lemma swatch_panel_witness :
  exists ranked shown,
    top_k COLOR_LIST (0, 64, 65) 5 = Ok ranked /\
    swatches ranked = Some shown /\
    map (fun s => fst (fst s)) shown = seq 0 (Nat.min 5 (List.length COLOR_LIST)) /\
    NoDup (map (fun s => snd (fst s)) shown) /\
    forall col nm h, In (col, nm, h) shown ->
                     exists c, In (nm, c) COLOR_LIST /\ h = hex_code c /\
                               String.length h = 7%nat.
Proof.
  apply (swatch_panel COLOR_LIST (0, 64, 65));
    [reflexivity | reflexivity | exact color_list_names_distinct].
Defined.

(** ** Exact matches *)

Lemma NoDup_map_eq {A B : Type} (f : A -> B) (l : list A) (x y : A) :
  NoDup (map f l) -> In x l -> In y l -> f x = f y -> x = y.
Proof.
  induction l as [|a l IH]; intros Hnd Hx Hy Hf; [destruct Hx|].
  cbn [map] in Hnd. inversion Hnd as [|? ? Hnotin Hnd']; subst.
  destruct Hx as [<-|Hx], Hy as [<-|Hy]; auto.
  - exfalso. apply Hnotin. rewrite Hf. apply in_map, Hy.
  - exfalso. apply Hnotin. rewrite <- Hf. apply in_map, Hx.
Qed.

Lemma float_leb_zero (x : Float.float) :
  Float.finite_nonneg x = true -> Float.leb x Float.zero = true ->
  x = Float.zero.
Proof. destruct x as [[]|[]| |[] m e]; cbn; intros; try discriminate; reflexivity. Qed.

Lemma color_list_colors_distinct : NoDup (map snd COLOR_LIST).
Proof.
  cbn [map snd COLOR_LIST].
  repeat (constructor;
          [cbn [In]; intros H;
           repeat (destruct H as [H|H]; [discriminate H|]); exact H|]).
  constructor.
Qed.

(** X10.  A pixel that is exactly the colour of a palette entry is
    identified by both operations: on a palette of colour samples with
    pairwise distinct colours, the scan returns that entry's name with
    distance 0.0, and the ranking starts with that entry at distance 0.0. *)
Theorem exact_colour_identified
  (palette : list entry) (name : string) (c : rgb) (k : Z) :
  valid_palette palette = true -> NoDup (map snd palette) ->
  In (name, c) palette -> 1 <= k ->
  nearest_in palette c = Ok (Some name, Float.zero) /\
  exists rest, top_k palette c k = Ok ((Float.zero, name, c) :: rest).
Proof.
  intros Hp Hnd Hin Hk.
  pose proof (valid_palette_in palette (name, c) Hp Hin) as Hc. cbn [snd] in Hc.
  assert (Hne : palette <> []) by (intros ->; destruct Hin).
  assert (Hself : forall e, In e palette -> sqdist c (snd e) = 0 -> e = (name, c)).
  { intros e He H0. apply (sqdist_zero c) in H0.
    apply (NoDup_map_eq snd palette); auto. }
  assert (Hzero : forall c' x, valid_rgb c' = true ->
                               root (sqdist c c') = Ok x -> x = Float.zero ->
                               sqdist c c' = 0).
  { intros c' x Hc' Hx ->.
    pose proof (root_eqb (sqdist c c') 0 Float.zero Float.zero
                  (sqdist_range c c' Hc Hc') ltac:(unfold max_sqdist; lia)
                  Hx root_zero) as H.
    change (Float.eqb Float.zero Float.zero) with true in H.
    symmetry in H. apply Z.eqb_eq in H. exact H. }
  split.
  - destruct (nearest_in_first_min c Hc palette Hp Hne)
      as (i & e & d & Hnear & (Hi & Hmin & _) & Hd & _).
    destruct (In_nth_error _ _ Hin) as [j Hj].
    specialize (Hmin j _ Hj). cbn [snd] in Hmin.
    assert (H0 : sqdist c c = 0) by (apply sqdist_zero; reflexivity).
    pose proof (sqdist_nonneg c (snd e)) as Hnn.
    assert (He0 : sqdist c (snd e) = 0) by lia.
    assert (He : e = (name, c)) by (apply Hself; [eapply nth_error_In, Hi|exact He0]).
    subst e. cbn [fst snd] in *. rewrite H0, root_zero in Hd.
    injection Hd as <-. exact Hnear.
  - destruct (top_k_sorted c Hc palette k Hp)
      as (ds & Htop & Hmap & Hok & Hroot & Hsorted).
    rewrite Forall_forall in Hok.
    (* the tuple of the entry itself *)
    assert (Hy : exists y, In y ds /\ item_entry y = (name, c)).
    { rewrite <- Hmap in Hin. apply in_map_iff in Hin as (y & Hy & Hin). eauto. }
    destruct Hy as (y & Hy & Hye).
    assert (Hyc : item_color y = c) by exact (f_equal snd Hye).
    assert (Hyd : item_dist y = Float.zero).
    { pose proof (Hroot y Hy) as H. rewrite Hyc in H.
      replace (sqdist c c) with 0 in H by (symmetry; apply sqdist_zero; reflexivity).
      rewrite root_zero in H. congruence. }
    (* the head of the sorted list *)
    destruct (sort ds) as [|x rest] eqn:Hsort.
    { exfalso. apply (Permutation_in y (Permutation_sym (sort_perm ds))) in Hy.
      rewrite Hsort in Hy. destruct Hy. }
    assert (Hperm : forall z, In z ds <-> In z (x :: rest)).
    { intros z. rewrite <- Hsort. split; apply Permutation_in;
        [apply Permutation_sym|]; apply sort_perm. }
    assert (Hx : In x ds) by (apply Hperm; left; reflexivity).
    assert (Hle : item_le x y).
    { apply Hperm in Hy as [<-|Hy'].
      - apply item_le_refl, Hok, Hx.
      - inversion Hsorted as [|? ? _ Hall]; subst.
        rewrite Forall_forall in Hall. apply Hall, Hy'. }
    destruct (item_le_inv x y (Hok x Hx) (Hok y Hy) Hle) as [Hdle _].
    rewrite Hyd in Hdle.
    pose proof (float_leb_zero (item_dist x) (Hok x Hx) Hdle) as Hxd.
    assert (Hxe : In (item_entry x) palette)
      by (rewrite <- Hmap; apply in_map, Hx).
    pose proof (valid_palette_in palette (item_entry x) Hp Hxe) as Hxv.
    cbn [snd item_entry] in Hxv.
    pose proof (Hzero (item_color x) (item_dist x) Hxv (Hroot x Hx) Hxd) as Hx0.
    pose proof (Hself (item_entry x) Hxe Hx0) as Hxn.
    assert (Hxeq : x = (Float.zero, name, c)).
    { destruct x as [[dx nx] cx]. cbv [item_entry item_name item_color item_dist fst snd] in *.
      congruence. }
    subst x. exists (firstn (Z.to_nat k - 1) rest). rewrite Htop.
    unfold slice_to. destruct (Z.leb_spec 0 k); [|lia].
    destruct (Z.to_nat k) as [|n] eqn:E; [lia|].
    cbn [firstn]. rewrite Nat.sub_succ, Nat.sub_0_r. reflexivity.
Qed.

Lemma exact_colour_identified_witness :
  nearest_in COLOR_LIST (255, 165, 0) = Ok (Some "Orange"%string, Float.zero) /\
  exists rest,
    top_k COLOR_LIST (255, 165, 0) 5
    = Ok ((Float.zero, "Orange"%string, (255, 165, 0)) :: rest).
Proof.
  apply (exact_colour_identified COLOR_LIST "Orange"%string (255, 165, 0) 5);
    [reflexivity | exact color_list_colors_distinct
     | do 16 right; left; reflexivity | lia].
Defined.

(** ** Manual coordinates *)

(** X11.  The default of the manual coordinate input lies between its
    minimum and its maximum exactly when the image has at least one pixel
    in that dimension; it is then the index of a pixel. *)
Theorem manual_input_in_bounds (size : Z) :
  let '(lo, hi, value) := manual_input size in
  (lo <= value <= hi <-> 1 <= size) /\
  (1 <= size -> 0 <= value < size).
Proof.
  unfold manual_input.
  assert (H : 0 <= size / 2 <= size - 1 <-> 1 <= size).
  { split; intros H.
    - destruct H. lia.
    - split; [apply Z.div_pos; lia|].
      assert (size / 2 < size) by (apply Z.div_lt_upper_bound; lia). lia. }
  split; [exact H|]. intros Hs. apply H in Hs. lia.
Qed.
